(** * PBS resource option parser: a shallow embedding of
      [src/vsc/qlint/pbs_option_parser.py]

    The parser is a Python 2 class.  Its methods mutate the parser object
    ([self._events], [self._job]) and may raise; they are embedded as
    computations in a state-and-exception monad over the parser object.
    Python dictionaries are finite maps with string keys, Python byte
    strings are [string]s, Python integers are [Z]. *)

From Stdlib Require Import ZArith Ascii String List Bool Lia.
From stdpp Require Import base option gmap strings list fin_maps sorting.

Local Open Scope string_scope.
Local Open Scope list_scope.
Local Open Scope Z_scope.

(** ** Python string primitives *)

Module Py.

(** Characters removed by [str.strip()] without argument. *)
Definition is_space (c : ascii) : bool :=
  let n := nat_of_ascii c in
  Nat.eqb n 32 || (Nat.leb 9 n && Nat.leb n 13).

Definition is_digit (c : ascii) : bool :=
  let n := nat_of_ascii c in Nat.leb 48 n && Nat.leb n 57.

Definition is_alpha (c : ascii) : bool :=
  let n := nat_of_ascii c in
  (Nat.leb 65 n && Nat.leb n 90) || (Nat.leb 97 n && Nat.leb n 122).

(** The class [\w] of [re] for byte strings without flags. *)
Definition is_word (c : ascii) : bool :=
  is_alpha c || is_digit c || Nat.eqb (nat_of_ascii c) 95.

Fixpoint lstrip (s : string) : string :=
  match s with
  | String c r => if is_space c then lstrip r else s
  | EmptyString => EmptyString
  end.

Fixpoint rstrip (s : string) : string :=
  match s with
  | String c r =>
      match rstrip r with
      | EmptyString => if is_space c then EmptyString else String c EmptyString
      | r' => String c r'
      end
  | EmptyString => EmptyString
  end.

(** [s.strip()] *)
Definition strip (s : string) : string := rstrip (lstrip s).

(** Puts a character in front of the first piece of a split. *)
Definition cons_head (c : ascii) (l : list string) : list string :=
  match l with
  | h :: t => String c h :: t
  | [] => [String c EmptyString]
  end.

(** [s.split(sep)] for a one-character separator. *)
Fixpoint split (sep : ascii) (s : string) : list string :=
  match s with
  | String c r =>
      if Ascii.eqb c sep then EmptyString :: split sep r
      else cons_head c (split sep r)
  | EmptyString => [EmptyString]
  end.

(** [s.split(sep, maxsplit)] for a one-character separator. *)
Fixpoint splitn (sep : ascii) (s : string) (maxsplit : nat) : list string :=
  match s with
  | String c r =>
      match maxsplit with
      | O => [s]
      | S m =>
          if Ascii.eqb c sep then EmptyString :: splitn sep r m
          else cons_head c (splitn sep r maxsplit)
      end
  | EmptyString => [EmptyString]
  end.

(** [s.startswith(p)] *)
Definition startswith (p s : string) : bool := String.prefix p s.

Fixpoint all_digits (s : string) : bool :=
  match s with
  | String c r => is_digit c && all_digits r
  | EmptyString => true
  end.

(** [s.isdigit()]: at least one character and all of them digits. *)
Definition isdigit (s : string) : bool :=
  match s with
  | EmptyString => false
  | _ => all_digits s
  end.

Definition digit_value (c : ascii) : Z := Z.of_nat (nat_of_ascii c) - 48.

Fixpoint int_acc (acc : Z) (s : string) : Z :=
  match s with
  | String c r => int_acc (10 * acc + digit_value c) r
  | EmptyString => acc
  end.

(** [int(s)] on a string of decimal digits. *)
Definition int (s : string) : Z := int_acc 0 s.

(** The longest prefix of digits, and what follows it: the greedy [\d*]. *)
Fixpoint span_digits (s : string) : string * string :=
  match s with
  | String c r =>
      if is_digit c then
        let '(ds, rest) := span_digits r in (String c ds, rest)
      else (EmptyString, s)
  | EmptyString => (EmptyString, EmptyString)
  end.

(** The longest prefix of [\w] characters, and what follows it. *)
Fixpoint span_word (s : string) : string * string :=
  match s with
  | String c r =>
      if is_word c then
        let '(ws, rest) := span_word r in (String c ws, rest)
      else (EmptyString, s)
  | EmptyString => (EmptyString, EmptyString)
  end.

(** [$] of [re]: the end of the string, or just before a final newline. *)
Definition at_end (s : string) : bool :=
  match s with
  | EmptyString => true
  | String c EmptyString => Nat.eqb (nat_of_ascii c) 10
  | _ => false
  end.

End Py.

(** ** Exceptions and the parser monad *)

Inductive exn : Type :=
  | ValueError
  | KeyError
  | IndexError
  | AttributeError
  | TypeError
  | SystemExit.

Inductive outcome (A : Type) : Type :=
  | Return (a : A)
  | Raise (e : exn).
Arguments Return {A} a.
Arguments Raise {A} e.

(** One registered event: the dictionary [{'event': ..., 'extra': ...}]. *)
Record Event : Type := mkEvent {
  event : string;
  extra : gmap string string
}.

(** The value held under a key of a node specification dictionary. *)
Inductive nval : Type :=
  | NInt (n : Z)
  | NStr (s : string)
  | NList (l : list string).

(** The value held under a key of [resource_spec]. *)
Inductive rval : Type :=
  | RInt (n : Z)
  | RNodes (node_specs : list (gmap string nval)).

(** A value of an attribute of the parsed option namespace. *)
Inductive optvalue : Type :=
  | ONone
  | OStr (s : string)
  | OList (l : list string).

(** A value the parser assigns to an attribute of the job. *)
Inductive attr : Type :=
  | AStr (s : string)
  | AList (l : list string).

(** The parser object: the two fields the methods read and write. *)
Record PbsOptionParser (Job : Type) : Type := mkParser {
  _job : Job;
  _events : list Event
}.
Arguments mkParser {Job} _ _.
Arguments _job {Job} _.
Arguments _events {Job} _.

(** A method body: it runs on the parser object, returns or raises, and
    leaves the parser object in a new state either way. *)
Definition M (Job A : Type) : Type :=
  PbsOptionParser Job -> outcome A * PbsOptionParser Job.

Definition raise {Job A} (e : exn) : M Job A := fun self => (Raise e, self).

#[export] Instance M_ret {Job} : MRet (M Job) :=
  fun A a self => (Return a, self).

#[export] Instance M_bind {Job} : MBind (M Job) :=
  fun A B k m self =>
    match m self with
    | (Return a, self') => k a self'
    | (Raise e, self') => (Raise e, self')
    end.

(** [for x in xs: acc = body(x, acc)]: a loop that threads a local value. *)
Fixpoint for_each {Job A S} (xs : list A) (body : A -> S -> M Job S) (acc : S)
  : M Job S :=
  match xs with
  | [] => mret acc
  | x :: xs' => acc' ← body x acc; for_each xs' body acc'
  end.

(** [a, b = l]: unpacking a list into two names. *)
Definition unpack2 {Job} (l : list string) : M Job (string * string) :=
  match l with
  | [a; b] => mret (a, b)
  | _ => raise ValueError
  end.

(** ** Collaborators that are imported by the parser *)

(** The two converters of [vsc.utils].  [walltime2seconds] returns [None]
    where the Python function raises [InvalidWalltimeError]. *)
Class VscUtils : Type := {
  walltime2seconds : string -> option Z;
  size2bytes : Z -> string -> Z
}.

(** The job object, the argument parser and the mail address validator.
    [parse_known_args] returns the items of the parsed namespace in the order
    [options.__dict__.items()] yields them, or raises; [setattr] is the
    assignment [job.<name> = value]. *)
Class Environment (Job : Type) : Type := {
  validate_email : string -> bool;
  convert_arg_line_to_args : string -> list string;
  parse_known_args : list string -> outcome (list (string * optvalue));
  setattr : string -> attr -> Job -> Job;
  add_resource_specs : gmap string rval -> Job -> Job
}.

(** ** The parser *)

Section Parser.

Context {Job : Type}.

(** [reg_event]: [self._events.append({'event': event, 'extra': extra})] *)
Definition reg_event (event : string) (extra : gmap string string)
  : M Job unit :=
  fun self =>
    (Return tt, mkParser (_job self) (_events self ++ [mkEvent event extra])).

(** [re.match(r'(\d+)([kmgt])[bw]', s)]: the groups 1 and 2 of the match.
    A digit is none of [kmgt], so the greedy [\d+] never gives a digit back. *)
Definition match_size (s : string) : option (string * string) :=
  match Py.span_digits s with
  | (String d ds, String order (String b _)) =>
      if existsb (Ascii.eqb order) ["k"; "m"; "g"; "t"]%char
         && existsb (Ascii.eqb b) ["b"; "w"]%char
      then Some (String d ds, String order EmptyString)
      else None
  | _ => None
  end.

(** Lines 158-168: one specification after the leading one of a node
    specification. *)
Definition check_spec_str (spec_str : string) (node_spec : gmap string nval)
  : M Job (gmap string nval) :=
  if Py.startswith "ppn=" spec_str || Py.startswith "gpus=" spec_str then
    '(key, value) ← unpack2 (Py.split "=" spec_str);
    if Py.isdigit value then
      mret (<[key := NInt (Py.int value)]> node_spec)
    else
      reg_event (key +:+ "_no_number") {[ "number" := value ]} ;;
      mret node_spec
  else
    match node_spec !! "features" with
    | Some (NList features) =>
        mret (<["features" := NList (features ++ [spec_str])]> node_spec)
    | Some _ => raise AttributeError
    | None => raise KeyError
    end.

(** Lines 146-156: the dictionary of a node specification after its leading
    specification is handled. *)
Definition leading_spec (spec0 : string) : gmap string nval :=
  let node_spec : gmap string nval := {[ "features" := NList [] ]} in
  if Py.isdigit spec0 then
    <["nodes" := NInt (Py.int spec0)]> node_spec
  else
    <["host" := NStr spec0]> (<["nodes" := NInt 1]> node_spec).

(** Lines 146-168: the body of the loop over [node_spec_strs]. *)
Definition parse_node_spec (node_spec_str : string)
  : M Job (gmap string nval) :=
  match Py.split ":" node_spec_str with
  | [] => raise IndexError
  | spec0 :: rest => for_each rest check_spec_str (leading_spec spec0)
  end.

(** Lines 145-169: the loop over [node_spec_strs]; [node_specs] is the list
    built so far. *)
Definition parse_node_specs (node_spec_strs : list string)
  : M Job (list (gmap string nval)) :=
  for_each node_spec_strs
    (fun node_spec_str node_specs =>
       node_spec ← parse_node_spec node_spec_str;
       mret (node_specs ++ [node_spec]))
    [].

Context `{VscUtils}.

(** Lines 122-172: the body of the loop over the values of one [-l]. *)
Definition check_val (val : string) (resource_spec : gmap string rval)
  : M Job (gmap string rval) :=
  if Py.startswith "walltime=" val || Py.startswith "cput=" val then
    '(attr_name, attr_value) ← unpack2 (Py.split "=" val);
    match walltime2seconds attr_value with
    | Some seconds => mret (<[attr_name := RInt seconds]> resource_spec)
    | None =>
        reg_event ("invalid_" +:+ attr_name +:+ "_format")
                  {[ "time" := attr_value ]} ;;
        mret resource_spec
    end
  else if Py.startswith "mem=" val || Py.startswith "pmem=" val then
    '(attr_name, attr_value) ← unpack2 (Py.split "=" val);
    match match_size attr_value with
    | Some (amount, order) =>
        mret (<[attr_name := RInt (size2bytes (Py.int amount) order)]>
               resource_spec)
    | None =>
        reg_event ("invalid_" +:+ attr_name +:+ "_format")
                  {[ "size" := attr_value ]} ;;
        mret resource_spec
    end
  else if Py.startswith "nodes=" val then
    '(attr_name, attr_value) ← unpack2 (Py.splitn "=" val 1);
    node_specs ← parse_node_specs (Py.split "+" attr_value);
    mret (<["nodes" := RNodes node_specs]> resource_spec)
  else
    reg_event "unknown_resource_spec" {[ "spec" := val ]} ;;
    mret resource_spec.

(** Lines 117-172: the two nested loops of [check_l], returning the local
    dictionary [resource_spec] they fill. *)
Definition check_l_loop (vals : list string) : M Job (gmap string rval) :=
  for_each (map Py.strip vals)
    (fun val_str resource_spec =>
       for_each (map Py.strip (Py.split "," val_str)) check_val resource_spec)
    ∅.

Context `{Environment Job}.

Definition modify_job (f : Job -> Job) : M Job unit :=
  fun self => (Return tt, mkParser (f (_job self)) (_events self)).

(** [check_l]: the loops, then [self._job.add_resource_specs(resource_spec)]. *)
Definition check_l (vals : list string) : M Job unit :=
  resource_spec ← check_l_loop vals;
  modify_job (add_resource_specs resource_spec).

(** [re.match(r'[A-Za-z]\w*$', val)] *)
Definition match_identifier (val : string) : bool :=
  match val with
  | String c r => Py.is_alpha c && Py.at_end (snd (Py.span_word r))
  | EmptyString => false
  end.

(** [re.match(r'[A-Za-z]\w{,14}$', val)] *)
Definition match_job_name (val : string) : bool :=
  match val with
  | String c r =>
      let '(ws, rest) := Py.span_word r in
      Py.is_alpha c && Nat.leb (String.length ws) 14 && Py.at_end rest
  | EmptyString => false
  end.

(** The longest prefix made of the characters [cs], and what follows it. *)
Fixpoint span_chars (cs : list ascii) (s : string) : string * string :=
  match s with
  | String c r =>
      if existsb (Ascii.eqb c) cs then
        let '(p, rest) := span_chars cs r in (String c p, rest)
      else (EmptyString, s)
  | EmptyString => (EmptyString, EmptyString)
  end.

(** [re.match(r'^[eo]+$', val)] *)
Definition match_keep (val : string) : bool :=
  let '(p, rest) := span_chars ["e"; "o"]%char val in
  Nat.leb 1 (String.length p) && Py.at_end rest.

(** [re.match(r'(?:^[bea]{1,3}$)|(?:^n$)', val)] *)
Definition match_mail_events (val : string) : bool :=
  (let '(p, rest) := span_chars ["b"; "e"; "a"]%char val in
   Nat.leb 1 (String.length p) && Nat.leb (String.length p) 3
   && Py.at_end rest)
  || match val with
     | String "n" rest => Py.at_end rest
     | _ => false
     end.

Definition check_A (val : string) : M Job unit :=
  if match_identifier val then modify_job (setattr "project" (AStr val))
  else reg_event "invalid_project_name" {[ "val" := val ]}.

Definition check_q (val : string) : M Job unit :=
  if match_identifier val then modify_job (setattr "queue" (AStr val))
  else reg_event "invalid_queue_name" {[ "val" := val ]}.

Definition check_j (val : string) : M Job unit :=
  if String.eqb val "oe" || String.eqb val "eo" || String.eqb val "n"
  then modify_job (setattr "join" (AStr val))
  else reg_event "invalid_join" {[ "val" := val ]}.

Definition check_k (val : string) : M Job unit :=
  if match_keep val || String.eqb val "n"
  then modify_job (setattr "keep" (AStr val))
  else reg_event "invalid_join" {[ "val" := val ]}.

Definition check_m (val : string) : M Job unit :=
  if match_mail_events val then modify_job (setattr "mail_events" (AStr val))
  else reg_event "invalid_mail_event" {[ "val" := val ]}.

(** The loop runs over the list that was just stored on the job. *)
Definition check_M (val : string) : M Job unit :=
  let mail_addresses := Py.split "," val in
  modify_job (setattr "mail_addresses" (AList mail_addresses)) ;;
  for_each mail_addresses
    (fun address _ =>
       if negb (validate_email address)
       then reg_event "invalid_mail_address" {[ "address" := address ]}
       else mret tt)
    tt.

Definition check_N (val : string) : M Job unit :=
  if match_job_name val then modify_job (setattr "name" (AStr val))
  else reg_event "invalid_job_name" {[ "val" := val ]}.

(** [value.strip()]: a list has no such method. *)
Definition strip_value (value : optvalue) : M Job string :=
  match value with
  | OStr s => mret (Py.strip s)
  | _ => raise AttributeError
  end.

(** The strings a [for] loop over [value] yields: the elements of a list,
    the characters of a string; [None] cannot be iterated over. *)
Definition iterate (value : optvalue) : M Job (list string) :=
  match value with
  | OList l => mret l
  | OStr s => mret (map (fun c => String c EmptyString) (list_ascii_of_string s))
  | ONone => raise TypeError
  end.

(** The truth value of [value] in [if value:]. *)
Definition truthy (value : optvalue) : bool :=
  match value with
  | ONone => false
  | OStr s => negb (String.eqb s EmptyString)
  | OList l => negb (Nat.eqb (List.length l) 0)
  end.

Definition handle_option (option : string) (value : optvalue) : M Job unit :=
  if String.eqb option "A" then val ← strip_value value; check_A val
  else if String.eqb option "j" then val ← strip_value value; check_j val
  else if String.eqb option "k" then val ← strip_value value; check_k val
  else if String.eqb option "l" then vals ← iterate value; check_l vals
  else if String.eqb option "m" then val ← strip_value value; check_m val
  else if String.eqb option "M" then val ← strip_value value; check_M val
  else if String.eqb option "N" then val ← strip_value value; check_N val
  else if String.eqb option "q" then val ← strip_value value; check_q val
  else mret tt.

(** [self._events = []] *)
Definition reset_events : M Job unit :=
  fun self => (Return tt, mkParser (_job self) []).

(** A call of an external function that may raise. *)
Definition lift {A} (o : outcome A) : M Job A := fun self => (o, self).

(** Lines 44-45: the body of the loop over the items of the namespace. *)
Definition handle_item (item : string * optvalue) (_ : unit) : M Job unit :=
  let '(option, value) := item in
  if truthy value then handle_option option value else mret tt.

Definition parse_args (option_line : string) : M Job unit :=
  reset_events ;;
  let args := convert_arg_line_to_args option_line in
  options ← lift (parse_known_args args);
  for_each options handle_item tt.

End Parser.

(** ** The converters of [vsc.utils] *)

(** Modelled from the spec: [vsc.utils.walltime2seconds] is not among the
    sources.  The spec's grammar of a duration is [digits], [digits:digits]
    or [digits:digits:digits], read as seconds, minutes and seconds, or
    hours, minutes and seconds; anything else is rejected. *)
Definition spec_walltime2seconds (time_str : string) : option Z :=
  match Py.split ":" time_str with
  | [ss] =>
      if Py.isdigit ss then Some (Py.int ss) else None
  | [mm; ss] =>
      if Py.isdigit mm && Py.isdigit ss
      then Some (Py.int mm * 60 + Py.int ss) else None
  | [hh; mm; ss] =>
      if Py.isdigit hh && Py.isdigit mm && Py.isdigit ss
      then Some (Py.int hh * 3600 + Py.int mm * 60 + Py.int ss) else None
  | _ => None
  end.

(** Modelled from the spec: [vsc.utils.size2bytes] is not among the sources.
    The spec gives a multiplier in base 1024 per unit: k is 2^10, m is 2^20,
    g is 2^30 and t is 2^40.  The spec names no other unit; the amount is
    returned as it is for one. *)
Definition spec_size2bytes (amount : Z) (order : string) : Z :=
  if String.eqb order "k" then amount * 2 ^ 10
  else if String.eqb order "m" then amount * 2 ^ 20
  else if String.eqb order "g" then amount * 2 ^ 30
  else if String.eqb order "t" then amount * 2 ^ 40
  else amount.

Definition spec_utils : VscUtils :=
  {| walltime2seconds := spec_walltime2seconds;
     size2bytes := spec_size2bytes |}.

(** A parser on a job without content and with no event registered yet. *)
Definition fresh : PbsOptionParser unit := mkParser tt [].

(** [check_l_loop] with the converters of the spec, on a fresh parser. *)
Definition run_l (vals : list string)
  : outcome (gmap string rval) * PbsOptionParser unit :=
  check_l_loop (H := spec_utils) vals fresh.

(** * Definitions used to state the properties *)

(** The character [c] occurs in [s]. *)
Fixpoint has_char (c : ascii) (s : string) : bool :=
  match s with
  | String d r => Ascii.eqb d c || has_char c r
  | EmptyString => false
  end.

(** The parser after [evs] were registered, in order. *)
Definition add_events {Job} (evs : list Event) (self : PbsOptionParser Job)
  : PbsOptionParser Job :=
  mkParser (_job self) (_events self ++ evs).

(** [m] ends with [o] and registers exactly [evs], whatever the parser it
    runs on, and touches nothing else. *)
Definition emits {A} (m : forall Job, M Job A) (o : outcome A)
  (evs : list Event) : Prop :=
  forall Job (self : PbsOptionParser Job), m Job self = (o, add_events evs self).

(** The number of times [c] occurs in [s]. *)
Fixpoint count_char (c : ascii) (s : string) : nat :=
  match s with
  | String d r => (if Ascii.eqb d c then 1 else 0) + count_char c r
  | EmptyString => 0
  end.

(** The text before the first ['='] (all of it when there is none). *)
Fixpoint key_of (s : string) : string :=
  match s with
  | String c r => if Ascii.eqb c "=" then EmptyString else String c (key_of r)
  | EmptyString => EmptyString
  end.

(** The text after the first ['='] (nothing when there is none). *)
Fixpoint value_of (s : string) : string :=
  match s with
  | String c r => if Ascii.eqb c "=" then r else value_of r
  | EmptyString => EmptyString
  end.

(** The text holds exactly one ['=']. *)
Definition one_eq (s : string) : bool := Nat.eqb (count_char "=" s) 1.

(** A specification the code reads as a number: [ppn=...] or [gpus=...]. *)
Definition is_number_spec (spec_str : string) : bool :=
  Py.startswith "ppn=" spec_str || Py.startswith "gpus=" spec_str.

(** A number specification whose value is not all digits. *)
Definition bad_number (spec_str : string) : bool :=
  is_number_spec spec_str && negb (Py.isdigit (value_of spec_str)).

(** The event a specification after the leading one gives rise to. *)
Definition number_event (spec_str : string) : list Event :=
  if bad_number spec_str then
    [mkEvent (key_of spec_str +:+ "_no_number")
             {[ "number" := value_of spec_str ]}]
  else [].

(** Every number specification holds one ['='] only. *)
Definition spec_ok (spec_str : string) : bool :=
  negb (is_number_spec spec_str) || one_eq spec_str.

(** The dictionary of a node specification holds a list of features. *)
Definition has_features (node_spec : gmap string nval) : Prop :=
  exists l, node_spec !! "features" = Some (NList l).

(** The leading specification of a node specification. *)
Definition leading (node_spec_str : string) : string :=
  hd EmptyString (Py.split ":" node_spec_str).

(** The specifications after the leading one. *)
Definition trailing (node_spec_str : string) : list string :=
  tl (Py.split ":" node_spec_str).

(** The number of nodes a node specification asks for. *)
Definition node_count (node_spec_str : string) : Z :=
  if Py.isdigit (leading node_spec_str) then Py.int (leading node_spec_str)
  else 1.

(** The host a node specification names, if its leading specification is
    not a number. *)
Definition node_host (node_spec_str : string) : option nval :=
  if Py.isdigit (leading node_spec_str) then None
  else Some (NStr (leading node_spec_str)).

(** Every number specification of the node specification holds one ['=']
    only. *)
Definition node_spec_ok (node_spec_str : string) : bool :=
  forallb spec_ok (trailing node_spec_str).

(** The events of the numbers of a node specification, in order. *)
Definition node_spec_events (node_spec_str : string) : list Event :=
  concat (map number_event (trailing node_spec_str)).

(** A dictionary that holds the count and the host of a node
    specification. *)
Definition node_of (node_spec_str : string) (node_spec : gmap string nval)
  : Prop :=
  node_spec !! "nodes" = Some (NInt (node_count node_spec_str))
  /\ node_spec !! "host" = node_host node_spec_str.

(** The body of the loop over the node specifications. *)
Definition node_specs_body Job (node_spec_str : string)
  (node_specs : list (gmap string nval)) : M Job (list (gmap string nval)) :=
  node_spec ← parse_node_spec node_spec_str;
  mret (node_specs ++ [node_spec]).

(** The specifications after the leading ones, over all node specifications
    of the value of a [nodes=]. *)
Definition number_specs (attr_value : string) : list string :=
  concat (map trailing (Py.split "+" attr_value)).

(** The three kinds of value the code tells apart by their first
    characters. *)
Definition is_time (val : string) : bool :=
  Py.startswith "walltime=" val || Py.startswith "cput=" val.

Definition is_size (val : string) : bool :=
  Py.startswith "mem=" val || Py.startswith "pmem=" val.

Definition is_nodes (val : string) : bool := Py.startswith "nodes=" val.

(** No ['='] beyond the one that ends a name: one ['='] in a time or a size,
    one ['='] in each number specification of a [nodes=]. *)
Definition well_split (val : string) : bool :=
  if is_time val || is_size val then one_eq val
  else if is_nodes val
       then forallb node_spec_ok (Py.split "+" (value_of val))
       else true.

(** What a value assigns to [resource_spec], if anything. *)
Definition update (resource_spec : gmap string rval)
  (upd : option (string * rval)) : gmap string rval :=
  match upd with
  | Some (attr_name, x) => <[attr_name := x]> resource_spec
  | None => resource_spec
  end.

(** The outcome with [f] applied to what is returned. *)
Definition outcome_map {A B} (f : A -> B) (o : outcome A) : outcome B :=
  match o with
  | Return a => Return (f a)
  | Raise e => Raise e
  end.

(** The number of values of [val] that the parser reports: a time the
    converter rejects, a size that the pattern of the code does not match,
    every number of a [nodes=] that is not all digits, a value whose name is
    unknown. *)
Definition reported_values `{VscUtils} (val : string) : nat :=
  if is_time val then
    match walltime2seconds (value_of val) with Some _ => 0 | None => 1 end
  else if is_size val then
    match match_size (value_of val) with Some _ => 0 | None => 1 end
  else if is_nodes val then
    List.length (filter (fun t => bad_number t = true)
                   (number_specs (value_of val)))
  else 1.

(** A value that is one of the four kinds and well formed. *)
Definition sets_attribute `{VscUtils} (val : string) : bool :=
  if is_time val then bool_decide (is_Some (walltime2seconds (value_of val)))
  else if is_size val then bool_decide (is_Some (match_size (value_of val)))
  else is_nodes val.

(** The values the loops of [check_l] handle, in the order they handle
    them: every [-l] stripped, split on [','], every piece stripped. *)
Definition sub_clauses (vals : list string) : list string :=
  concat (map (fun val_str => map Py.strip (Py.split "," (Py.strip val_str)))
              vals).

(** The pattern of the spec, [^(\d+)([kmgt])[bw]$]: the pattern of the code
    followed by the end of the text. *)
Definition match_size_anchored (s : string) : option (string * string) :=
  match Py.span_digits s with
  | (String d ds, String order (String b rest)) =>
      if existsb (Ascii.eqb order) ["k"; "m"; "g"; "t"]%char
         && existsb (Ascii.eqb b) ["b"; "w"]%char
         && Py.at_end rest
      then Some (String d ds, String order EmptyString)
      else None
  | _ => None
  end.

(** The number of values of [val] that are malformed: a time the converter
    rejects, a size that does not match the pattern of the spec, every
    number of a [nodes=] that is not all digits, a value whose name is
    unknown. *)
Definition malformed_values `{VscUtils} (val : string) : nat :=
  if is_time val then
    match walltime2seconds (value_of val) with Some _ => 0 | None => 1 end
  else if is_size val then
    match match_size_anchored (value_of val) with Some _ => 0 | None => 1 end
  else if is_nodes val then
    List.length (filter (fun t => bad_number t = true)
                   (number_specs (value_of val)))
  else 1.

(** No text follows the size of a [mem=] or [pmem=]: what the pattern of
    the code matches, the pattern of the spec matches too. *)
Definition no_trailing_text (val : string) : bool :=
  negb (is_size val)
  || match match_size (value_of val) with
     | Some _ => bool_decide (is_Some (match_size_anchored (value_of val)))
     | None => true
     end.

(** The event of a value whose name is unknown. *)
Definition unknown_resource_spec (val : string) : Event :=
  mkEvent "unknown_resource_spec" {[ "spec" := val ]}.

(** The property of the claim: the dictionary holds a count of 1 at least. *)
Definition count_at_least_one (node_spec : gmap string nval) : Prop :=
  exists n, node_spec !! "nodes" = Some (NInt n) /\ 1 <= n.

(** The dictionary a value fills when it is handled on an empty one (empty
    when the value sets nothing or raises). *)
Definition assigned_by `{VscUtils} (val : string) : gmap string rval :=
  match fst (check_val val ∅ fresh) with
  | Return rs => rs
  | Raise _ => ∅
  end.

(** [m] ends the same way on every parser, and what it does to the parser is
    to change the job and to append events that depend on neither the job
    nor the events registered before. *)
Definition appending {Job A} (m : M Job A) : Prop :=
  exists o (f : Job -> Job) evs,
    forall self, m self = (o, mkParser (f (_job self)) (_events self ++ evs)).

(** [m] keeps the job of the parser and the events registered so far, and
    appends events that all satisfy [P]. *)
Definition extends {Job A} (P : Event -> Prop) (m : M Job A) : Prop :=
  forall self,
    _job (snd (m self)) = _job self
    /\ exists new,
         _events (snd (m self)) = _events self ++ new /\ Forall P new.

(** The seven events of the resource options, each with its one detail. *)
Definition resource_event (e : Event) : Prop :=
  exists v,
    e = mkEvent "invalid_walltime_format" {[ "time" := v ]}
    \/ e = mkEvent "invalid_cput_format" {[ "time" := v ]}
    \/ e = mkEvent "invalid_mem_format" {[ "size" := v ]}
    \/ e = mkEvent "invalid_pmem_format" {[ "size" := v ]}
    \/ e = mkEvent "ppn_no_number" {[ "number" := v ]}
    \/ e = mkEvent "gpus_no_number" {[ "number" := v ]}
    \/ e = mkEvent "unknown_resource_spec" {[ "spec" := v ]}.

(** The specifications of a node specification that are kept as features:
    those that are neither [ppn=...] nor [gpus=...], in order. *)
Definition features_of (spec_strs : list string) : list string :=
  List.filter (fun t => negb (is_number_spec t)) spec_strs.

(** The number the dictionary holds under [key] after the specifications
    [spec_strs]: that of the last [key=...] whose value is all digits. *)
Definition number_value (key : string) (spec_strs : list string)
  : option nval :=
  fold_left
    (fun acc t =>
       if is_number_spec t && String.eqb (key_of t) key
          && Py.isdigit (value_of t)
       then Some (NInt (Py.int (value_of t)))
       else acc)
    spec_strs None.

(** Every character of [s] satisfies [f]. *)
Fixpoint string_forall (f : ascii -> bool) (s : string) : bool :=
  match s with
  | String c r => f c && string_forall f r
  | EmptyString => true
  end.

(** The longest prefix of characters that satisfy [f], and what follows. *)
Fixpoint span_by (f : ascii -> bool) (s : string) : string * string :=
  match s with
  | String c r =>
      if f c then let '(p, rest) := span_by f r in (String c p, rest)
      else (EmptyString, s)
  | EmptyString => (EmptyString, EmptyString)
  end.

(** The first character of [s], if any, does not satisfy [f]. *)
Definition stops (f : ascii -> bool) (s : string) : bool :=
  match s with
  | String c _ => negb (f c)
  | EmptyString => true
  end.

(** One of the characters [cs]. *)
Definition one_of (cs : list ascii) (c : ascii) : bool :=
  existsb (Ascii.eqb c) cs.

(** [f] applied to the last element of a list. *)
Fixpoint map_last {A} (f : A -> A) (l : list A) : list A :=
  match l with
  | [] => []
  | [x] => [f x]
  | x :: t => x :: map_last f t
  end.

(** The last character of [s] is white space. *)
Fixpoint ends_with_space (s : string) : bool :=
  match s with
  | EmptyString => false
  | String c EmptyString => Py.is_space c
  | String _ r => ends_with_space r
  end.

(** A letter followed by letters, digits and underscores only. *)
Definition identifier (val : string) : bool :=
  match val with
  | String c w => Py.is_alpha c && string_forall Py.is_word w
  | EmptyString => false
  end.

(** An identifier of 15 characters at most. *)
Definition job_name (val : string) : bool :=
  identifier val && Nat.leb (String.length val) 15.

(** One character at least, each of them [e] or [o]; or [n]. *)
Definition keep_value (val : string) : bool :=
  (Nat.leb 1 (String.length val)
   && string_forall (one_of ["e"; "o"]%char) val)
  || String.eqb val "n".

(** One to three characters, each of them [b], [e] or [a]; or [n]. *)
Definition mail_events_value (val : string) : bool :=
  (Nat.leb 1 (String.length val) && Nat.leb (String.length val) 3
   && string_forall (one_of ["b"; "e"; "a"]%char) val)
  || String.eqb val "n".

(** The parser after its job received the attribute [name]. *)
Definition set_attribute {Job} `{Environment Job} (name : string) (v : attr)
  (self : PbsOptionParser Job) : PbsOptionParser Job :=
  mkParser (setattr name v (_job self)) (_events self).

(** What an option with one text as value does: the job receives the
    stripped text as [name] when it is [accepted], and the event [kind] with
    the stripped text is registered otherwise. *)
Definition accept_or_report {Job} `{Environment Job}
  (accepted : string -> bool) (name kind : string) (s : string)
  (self : PbsOptionParser Job) : outcome unit * PbsOptionParser Job :=
  if accepted (Py.strip s)
  then (Return tt, set_attribute name (AStr (Py.strip s)) self)
  else (Return tt,
        add_events [mkEvent kind {[ "val" := Py.strip s ]}] self).

(** The event of a mail address that is not valid. *)
Definition invalid_mail_address (address : string) : Event :=
  mkEvent "invalid_mail_address" {[ "address" := address ]}.

(** [m] keeps the events registered so far and appends events that all
    satisfy [P]; it may change the job. *)
Definition appends {Job A} (P : Event -> Prop) (m : M Job A) : Prop :=
  forall self,
    exists new, _events (snd (m self)) = _events self ++ new /\ Forall P new.

(** The events of the options: those of the resource options, and six more
    kinds of which five hold the value as [val] and one an [address]. *)
Definition option_event (e : Event) : Prop :=
  resource_event e
  \/ exists v,
       e = mkEvent "invalid_project_name" {[ "val" := v ]}
       \/ e = mkEvent "invalid_queue_name" {[ "val" := v ]}
       \/ e = mkEvent "invalid_join" {[ "val" := v ]}
       \/ e = mkEvent "invalid_mail_event" {[ "val" := v ]}
       \/ e = mkEvent "invalid_job_name" {[ "val" := v ]}
       \/ e = mkEvent "invalid_mail_address" {[ "address" := v ]}.

(** * The semantic checker, [src/vsc/pbs/check.py] *)

(** [if x:] on a value that is [None] or an integer. *)
Definition truthy_int (x : option Z) : bool :=
  match x with
  | Some n => negb (Z.eqb n 0)
  | None => false
  end.

(** Lines 30-32 of [check_pmem]: the loop over the memory sizes, which
    returns [True] at the first size that [node_mem] is below. *)
Fixpoint some_node_fits (node_mem : Z) (mem_sizes : list Z) : bool :=
  match mem_sizes with
  | mem :: rest =>
      if Z.ltb node_mem mem then true else some_node_fits node_mem rest
  | [] => false
  end.

(** The event [check_pmem] registers. *)
Definition insufficient_node_mem (bytes2size : Z -> string -> string)
  (node_mem : Z) : Event :=
  mkEvent "insufficient_node_mem" {[ "mem" := bytes2size node_mem "gb" ]}.

(** [JobChecker.check_pmem].  [ppn] and [pmem] are what
    [job.resource_spec] returns, [mem_sizes] the keys of the dictionary
    [_mem_sizes] builds from the database, in the order the loop visits
    them; the result is [Some true] for [True] and [None] for a return
    without value.  The line the method prints is left out.

    Modelled from the spec: the class [EventLogger] that [JobChecker]
    extends is not among the sources; its [reg_event] appends the event to
    the ordered sequence of events, here [events]. *)
Definition check_pmem (bytes2size : Z -> string -> string)
  (ppn pmem : option Z) (mem_sizes : list Z) (events : list Event)
  : option bool * list Event :=
  if truthy_int ppn && truthy_int pmem then
    match ppn, pmem with
    | Some p, Some m =>
        let node_mem := p * m in
        if some_node_fits node_mem mem_sizes then (Some true, events)
        else (None, events ++ [insufficient_node_mem bytes2size node_mem])
    | _, _ => (Some true, events)
    end
  else (Some true, events).

(** * The job log analysis, [src/vsc/pbs/job_analysis.py] *)

(** Lines 19-23 of [job_to_tuple]: the [ppn] read from the [nodes] resource
    of a job. *)
Definition job_ppn (nodes : string) : outcome (option string) :=
  match Py.split ":" nodes with
  | _ :: part1 :: _ =>
      if has_char "=" part1 then
        match Py.split "=" part1 with
        | [_; ppn] => Return (Some ppn)
        | _ => Raise ValueError
        end
      else Return None
  | _ => Return None
  end.

(** The order of [str] values: byte by byte. *)
Definition string_le (a b : string) : Prop := String.leb a b = true.

#[export] Instance string_le_dec a b : Decision (string_le a b).
Proof. unfold string_le. apply _. Defined.

(** [sorted(d.iterkeys())] *)
Definition sorted_keys {V} (d : gmap string V) : list string :=
  merge_sort string_le (elements (dom d)).

(** Lines 42-43 of [exec_host_to_tuples]: the loop over the sorted hosts. *)
Fixpoint host_tuples {J V} (job_id : J) (exec_host : gmap string V)
  (hosts : list string) (tuples : list (J * string * V))
  : outcome (list (J * string * V)) :=
  match hosts with
  | host :: rest =>
      match exec_host !! host with
      | Some cores =>
          host_tuples job_id exec_host rest (tuples ++ [(job_id, host, cores)])
      | None => Raise KeyError
      end
  | [] => Return tuples
  end.

(** [exec_host_to_tuples]; [exec_host] is [None] or a dictionary. *)
Definition exec_host_to_tuples {J V} (job_id : J)
  (exec_host : option (gmap string V)) : outcome (list (J * string * V)) :=
  match exec_host with
  | Some d =>
      if Nat.eqb (size d) 0 then Return []
      else host_tuples job_id d (sorted_keys d) []
  | None => Return []
  end.

(** The host of a tuple. *)
Definition host_of {J V} (t : J * string * V) : string := snd (fst t).

(** * Lemmas *)

(** ** The parser on two lines of the spec *)

Example run_l_example :
  run_l ["walltime=01:00:00,mem=4gb"] =
  (Return (<["mem" := RInt 4294967296]> {[ "walltime" := RInt 3600 ]}), fresh).
Proof. vm_compute. reflexivity. Qed.

Example run_l_nodes_example :
  run_l ["nodes=2:ppn=4+1:gpus=1"] =
  (Return {[ "nodes" := RNodes
     [ <["ppn" := NInt 4]> (<["nodes" := NInt 2]> {[ "features" := NList [] ]});
       <["gpus" := NInt 1]> (<["nodes" := NInt 1]> {[ "features" := NList [] ]}) ] ]},
   fresh).
Proof. vm_compute. reflexivity. Qed.

(** ** Strings: splitting and prefixes *)

Lemma split_not_nil sep s : Py.split sep s <> [].
Proof.
  destruct s as [|c r]; simpl; [discriminate|].
  destruct (Ascii.eqb c sep); [discriminate|].
  destruct (Py.split sep r); discriminate.
Qed.

Lemma split_no_sep sep s : has_char sep s = false -> Py.split sep s = [s].
Proof.
  induction s as [|c r IH]; simpl; [reflexivity|].
  intros Hc. apply orb_false_iff in Hc as [Hc Hr].
  rewrite Hc, (IH Hr). reflexivity.
Qed.

Lemma split_sep_length sep s :
  has_char sep s = true -> (2 <= List.length (Py.split sep s))%nat.
Proof.
  induction s as [|c r IH]; simpl; [discriminate|].
  destruct (Ascii.eqb c sep); simpl.
  - intros _. pose proof (split_not_nil sep r).
    destruct (Py.split sep r); [congruence | simpl; lia].
  - intros Hr. specialize (IH Hr).
    destruct (Py.split sep r); simpl in *; lia.
Qed.

Lemma split_app sep p r :
  has_char sep p = false ->
  Py.split sep (p +:+ String sep r) = p :: Py.split sep r.
Proof.
  induction p as [|c p IH]; simpl.
  - intros _. rewrite Ascii.eqb_refl. reflexivity.
  - intros Hc. apply orb_false_iff in Hc as [Hc Hp].
    rewrite Hc, (IH Hp). reflexivity.
Qed.

Lemma splitn1_app sep p r :
  has_char sep p = false ->
  Py.splitn sep (p +:+ String sep r) 1 = [p; r].
Proof.
  induction p as [|c p IH]; simpl.
  - intros _. rewrite Ascii.eqb_refl. destruct r; reflexivity.
  - intros Hc. apply orb_false_iff in Hc as [Hc Hp].
    rewrite Hc, (IH Hp). reflexivity.
Qed.

Lemma startswith_app p s :
  Py.startswith p s = true -> exists r, s = p +:+ r.
Proof.
  unfold Py.startswith. revert s.
  induction p as [|c p IH]; intros s.
  - intros _. exists s. reflexivity.
  - destruct s as [|d s]; simpl; [discriminate|].
    destruct (ascii_dec c d) as [Hcd|Hcd]; [subst d|discriminate].
    intros Hp. destruct (IH _ Hp) as [r Hr]. exists r. subst s. reflexivity.
Qed.

Lemma startswith_app_true p r : Py.startswith p (p +:+ r) = true.
Proof.
  unfold Py.startswith. induction p as [|c p IH]; simpl.
  - destruct r; reflexivity.
  - destruct (ascii_dec c c); [exact IH | congruence].
Qed.

(** ** Integers read from digit strings *)

Lemma digit_value_range c : Py.is_digit c = true -> 0 <= Py.digit_value c <= 9.
Proof.
  unfold Py.is_digit, Py.digit_value. intros Hc.
  apply andb_true_iff in Hc as [H1 H2].
  apply Nat.leb_le in H1, H2. lia.
Qed.

Lemma int_acc_nonneg s : forall acc,
  Py.all_digits s = true -> 0 <= acc -> 0 <= Py.int_acc acc s.
Proof.
  induction s as [|c r IH]; simpl; intros acc Hd Hacc; [exact Hacc|].
  apply andb_true_iff in Hd as [Hc Hr].
  apply IH; [exact Hr|]. pose proof (digit_value_range c Hc). lia.
Qed.

Lemma isdigit_all_digits s : Py.isdigit s = true -> Py.all_digits s = true.
Proof. destruct s; [discriminate | intros Hs; exact Hs]. Qed.

Lemma int_nonneg s : Py.isdigit s = true -> 0 <= Py.int s.
Proof.
  intros Hs. apply int_acc_nonneg; [apply isdigit_all_digits, Hs | lia].
Qed.

(** ** Computations that only append events *)

Lemma add_events_nil {Job} (self : PbsOptionParser Job) :
  add_events [] self = self.
Proof. destruct self. unfold add_events. simpl. rewrite app_nil_r. reflexivity. Qed.

Lemma add_events_app {Job} evs1 evs2 (self : PbsOptionParser Job) :
  add_events evs2 (add_events evs1 self) = add_events (evs1 ++ evs2) self.
Proof. unfold add_events. simpl. rewrite app_assoc. reflexivity. Qed.

Lemma emits_ret {A} (a : A) : emits (fun Job => mret a) (Return a) [].
Proof. intros Job self. rewrite add_events_nil. reflexivity. Qed.

Lemma emits_raise {A} e : emits (fun Job => raise (A := A) e) (Raise e) [].
Proof. intros Job self. rewrite add_events_nil. reflexivity. Qed.

Lemma emits_reg_event ev ex :
  emits (fun Job => reg_event ev ex) (Return tt) [mkEvent ev ex].
Proof. intros Job self. reflexivity. Qed.

Lemma emits_bind {A B} (m : forall Job, M Job A) (k : forall Job, A -> M Job B)
  a evs1 o evs2 :
  emits m (Return a) evs1 ->
  emits (fun Job => k Job a) o evs2 ->
  emits (fun Job => m Job ≫= k Job) o (evs1 ++ evs2).
Proof.
  intros Hm Hk Job self. unfold mbind, M_bind.
  rewrite Hm, Hk, add_events_app. reflexivity.
Qed.

Lemma emits_bind_raise {A B} (m : forall Job, M Job A)
  (k : forall Job, A -> M Job B) e evs :
  emits m (Raise e) evs ->
  emits (fun Job => m Job ≫= k Job) (Raise e) evs.
Proof.
  intros Hm Job self. unfold mbind, M_bind. rewrite Hm. reflexivity.
Qed.

Lemma emits_inj {A} (m : forall Job, M Job A) o1 evs1 o2 evs2 :
  emits m o1 evs1 -> emits m o2 evs2 -> o1 = o2 /\ evs1 = evs2.
Proof.
  intros H1 H2. specialize (H1 unit fresh). specialize (H2 unit fresh).
  rewrite H1 in H2. inversion H2. split; reflexivity.
Qed.

(** A loop whose body only appends events only appends events. *)
Lemma emits_for_each {A S} (body : forall Job, A -> S -> M Job S) xs :
  (forall x acc, exists o evs, emits (fun Job => body Job x acc) o evs) ->
  forall acc, exists o evs, emits (fun Job => for_each xs (body Job) acc) o evs.
Proof.
  intros Hbody. induction xs as [|x xs IH]; intros acc; simpl.
  - exists (Return acc), []. apply emits_ret.
  - destruct (Hbody x acc) as [[acc'|e] [evs1 H1]].
    + destruct (IH acc') as [o [evs2 H2]].
      exists o, (evs1 ++ evs2).
      apply (emits_bind (fun Job => body Job x acc)
               (fun Job acc' => for_each xs (body Job) acc')
               acc' evs1 o evs2 H1 H2).
    + exists (Raise e), evs1.
      apply (emits_bind_raise (fun Job => body Job x acc)
               (fun Job acc' => for_each xs (body Job) acc') e evs1 H1).
Qed.

(** ** Keys and values of a [key=value] text *)

Lemma split_length sep s :
  List.length (Py.split sep s) = S (count_char sep s).
Proof.
  induction s as [|c r IH]; simpl; [reflexivity|].
  destruct (Ascii.eqb c sep); simpl; [rewrite IH; reflexivity|].
  destruct (Py.split sep r); simpl in *; [discriminate | exact IH].
Qed.

Lemma count_char_has_char c s :
  count_char c s = 0%nat -> has_char c s = false.
Proof.
  induction s as [|d r IH]; simpl; [reflexivity|].
  destruct (Ascii.eqb d c); simpl; [discriminate | exact IH].
Qed.

Lemma split_one_eq s :
  one_eq s = true -> Py.split "=" s = [key_of s; value_of s].
Proof.
  unfold one_eq. intros Hs. apply Nat.eqb_eq in Hs.
  induction s as [|c r IH]; simpl in *; [discriminate|].
  destruct (Ascii.eqb c "="); simpl in *.
  - rewrite split_no_sep; [reflexivity|].
    apply count_char_has_char. lia.
  - rewrite (IH Hs). reflexivity.
Qed.

Lemma split_not_one_eq s :
  one_eq s = false -> forall a b, Py.split "=" s <> [a; b].
Proof.
  unfold one_eq. intros Hs a b Hab. apply Nat.eqb_neq in Hs.
  pose proof (split_length "=" s) as Hl. rewrite Hab in Hl. simpl in Hl. lia.
Qed.

Lemma startswith_key p r :
  has_char "=" p = false -> key_of (p +:+ String "=" r) = p.
Proof.
  induction p as [|c p IH]; simpl; [reflexivity|].
  intros Hc. apply orb_false_iff in Hc as [Hc Hp].
  rewrite Hc, (IH Hp). reflexivity.
Qed.

(** ** The specifications after the leading one *)

Lemma is_number_spec_key spec_str :
  is_number_spec spec_str = true ->
  key_of spec_str = "ppn" \/ key_of spec_str = "gpus".
Proof.
  unfold is_number_spec. intros Hp. apply orb_true_iff in Hp as [Hp|Hp];
    apply startswith_app in Hp as [r ->]; [left|right]; reflexivity.
Qed.

(** Unfolds the monad so that a method body reduces on a parser. *)
Ltac run_m :=
  unfold emits, mbind, M_bind, mret, M_ret, reg_event, unpack2, raise; cbn.

(** What [check_spec_str] does to a specification with one ['='] at most
    in a number specification. *)
Lemma check_spec_str_ok spec_str node_spec :
  spec_ok spec_str = true -> has_features node_spec ->
  exists node_spec',
    emits (fun Job => check_spec_str spec_str node_spec)
          (Return node_spec') (number_event spec_str)
    /\ has_features node_spec'
    /\ node_spec' !! "nodes" = node_spec !! "nodes"
    /\ node_spec' !! "host" = node_spec !! "host"
    /\ (forall key, is_number_spec spec_str = true ->
        key_of spec_str = key ->
        node_spec' !! key =
          if Py.isdigit (value_of spec_str)
          then Some (NInt (Py.int (value_of spec_str)))
          else node_spec !! key).
Proof.
  unfold spec_ok, number_event, bad_number, check_spec_str.
  intros Hok [l Hl].
  fold (is_number_spec spec_str).
  destruct (is_number_spec spec_str) eqn:Hnum; simpl in *.
  - rewrite (split_one_eq _ Hok).
    destruct (is_number_spec_key _ Hnum) as [Hk|Hk]; rewrite Hk; run_m;
      destruct (Py.isdigit (value_of spec_str)); cbn.
    1,3: eexists; split; [|split; [|split; [|split]]];
      [ intros Job self; rewrite add_events_nil; reflexivity
      | exists l; rewrite lookup_insert_ne by discriminate; exact Hl
      | apply lookup_insert_ne; discriminate
      | apply lookup_insert_ne; discriminate
      | intros key _ <-; apply lookup_insert_eq ].
    all: exists node_spec; split; [|split; [|split; [|split]]];
      [ intros Job self; reflexivity
      | exists l; exact Hl
      | reflexivity
      | reflexivity
      | intros key _ _; reflexivity ].
  - rewrite Hl. run_m. eexists; split; [|split; [|split; [|split]]].
    + intros Job self. rewrite add_events_nil. reflexivity.
    + eexists. apply lookup_insert_eq.
    + apply lookup_insert_ne. discriminate.
    + apply lookup_insert_ne. discriminate.
    + intros key Hf. discriminate.
Qed.

(** A number specification with a second ['='] cannot be unpacked. *)
Lemma check_spec_str_raises spec_str node_spec :
  spec_ok spec_str = false ->
  emits (fun Job => check_spec_str spec_str node_spec) (Raise ValueError) [].
Proof.
  unfold spec_ok, check_spec_str. fold (is_number_spec spec_str).
  destruct (is_number_spec spec_str); simpl; [|discriminate].
  intros Hne Job self. rewrite add_events_nil.
  pose proof (split_not_one_eq _ Hne) as Hs.
  destruct (Py.split "=" spec_str) as [|a [|b [|c t]]]; try reflexivity.
  exfalso. apply (Hs a b). reflexivity.
Qed.

(** The loop over the specifications after the leading one: it returns when
    every number specification holds one ['='] only, registers one event per
    number that is not all digits, and leaves the count and the host alone;
    otherwise it raises [ValueError]. *)
Lemma check_spec_strs_spec spec_strs : forall node_spec,
  has_features node_spec ->
  exists o evs,
    emits (fun Job => for_each spec_strs check_spec_str node_spec) o evs
    /\ match o with
       | Return node_spec' =>
           forallb spec_ok spec_strs = true
           /\ evs = concat (map number_event spec_strs)
           /\ has_features node_spec'
           /\ node_spec' !! "nodes" = node_spec !! "nodes"
           /\ node_spec' !! "host" = node_spec !! "host"
       | Raise e => e = ValueError /\ forallb spec_ok spec_strs = false
       end.
Proof.
  induction spec_strs as [|t ts IH]; intros ns Hf; simpl.
  - exists (Return ns), []. split; [apply emits_ret | auto].
  - destruct (spec_ok t) eqn:Hok.
    + destruct (check_spec_str_ok t ns Hok Hf)
        as (ns1 & H1 & Hf1 & Hn1 & Hh1 & _).
      destruct (IH ns1 Hf1) as (o & evs & H2 & Ho).
      exists o, (number_event t ++ evs). split.
      * apply (emits_bind (fun Job => check_spec_str t ns)
                 (fun Job acc => for_each ts check_spec_str acc)
                 ns1 _ o evs H1 H2).
      * destruct o as [ns'|e]; [|exact Ho].
        destruct Ho as (Hall & -> & Hf' & Hn' & Hh').
        repeat split; [exact Hall | exact Hf' | congruence | congruence].
    + exists (Raise ValueError), []. split; [|auto].
      apply (emits_bind_raise (fun Job => check_spec_str t ns)
               (fun Job acc => for_each ts check_spec_str acc)).
      apply check_spec_str_raises. exact Hok.
Qed.

(** ** Node specifications *)

Lemma leading_spec_lookups spec0 :
  has_features (leading_spec spec0)
  /\ leading_spec spec0 !! "nodes"
     = Some (NInt (if Py.isdigit spec0 then Py.int spec0 else 1))
  /\ leading_spec spec0 !! "host"
     = (if Py.isdigit spec0 then None else Some (NStr spec0)).
Proof.
  unfold leading_spec, has_features. destruct (Py.isdigit spec0).
  - split; [exists []; reflexivity | split; reflexivity].
  - split; [exists []; reflexivity | split; reflexivity].
Qed.

Lemma parse_node_spec_spec node_spec_str :
  exists o evs,
    emits (fun Job => parse_node_spec node_spec_str) o evs
    /\ match o with
       | Return node_spec =>
           node_spec_ok node_spec_str = true
           /\ evs = node_spec_events node_spec_str
           /\ node_of node_spec_str node_spec
       | Raise e => e = ValueError /\ node_spec_ok node_spec_str = false
       end.
Proof.
  unfold parse_node_spec, node_spec_ok, node_spec_events, node_of,
    node_count, node_host, leading, trailing.
  pose proof (split_not_nil ":" node_spec_str) as Hne.
  destruct (Py.split ":" node_spec_str) as [|spec0 rest]; [congruence|].
  simpl. destruct (leading_spec_lookups spec0) as (Hf & Hn & Hh).
  destruct (check_spec_strs_spec rest _ Hf) as (o & evs & Hm & Ho).
  exists o, evs. split; [exact Hm|].
  destruct o as [ns|e]; [|exact Ho].
  destruct Ho as (Hall & Hevs & _ & Hn' & Hh').
  repeat split; [exact Hall | exact Hevs | congruence | congruence].
Qed.

Lemma node_specs_loop_spec node_spec_strs : forall node_specs,
  exists o evs,
    emits (fun Job => for_each node_spec_strs (node_specs_body Job) node_specs)
          o evs
    /\ match o with
       | Return node_specs' =>
           forallb node_spec_ok node_spec_strs = true
           /\ evs = concat (map node_spec_events node_spec_strs)
           /\ exists new, node_specs' = node_specs ++ new
                          /\ Forall2 node_of node_spec_strs new
       | Raise e =>
           e = ValueError /\ forallb node_spec_ok node_spec_strs = false
       end.
Proof.
  induction node_spec_strs as [|g gs IH]; intros acc; simpl.
  - exists (Return acc), []. split; [apply emits_ret|].
    repeat split. exists []. rewrite app_nil_r. split; [reflexivity|constructor].
  - destruct (parse_node_spec_spec g) as (o1 & evs1 & H1 & Ho1).
    destruct o1 as [ns|e].
    + destruct Ho1 as (Hok & -> & Hof).
      destruct (IH (acc ++ [ns])) as (o & evs & H2 & Ho).
      exists o, (node_spec_events g ++ evs). split.
      * apply (emits_bind (fun Job => node_specs_body Job g acc)
                 (fun Job a => for_each gs (node_specs_body Job) a)
                 (acc ++ [ns]) _ o evs); [|exact H2].
        unfold node_specs_body.
        rewrite <- (app_nil_r (node_spec_events g)).
        apply (emits_bind (fun Job => parse_node_spec g)
                 (fun Job n => mret (acc ++ [n])) ns _ _ [] H1).
        apply emits_ret.
      * destruct o as [nss|e]; [|rewrite Hok; exact Ho].
        destruct Ho as (Hall & -> & new & -> & Hnew).
        rewrite Hok. repeat split; [exact Hall|].
        exists (ns :: new). rewrite <- app_assoc. split; [reflexivity|].
        constructor; assumption.
    + destruct Ho1 as (-> & Hok).
      exists (Raise ValueError), evs1. rewrite Hok. split; [|auto].
      apply (emits_bind_raise (fun Job => node_specs_body Job g acc)
               (fun Job a => for_each gs (node_specs_body Job) a)).
      unfold node_specs_body.
      apply (emits_bind_raise (fun Job => parse_node_spec g)
               (fun Job n => mret (acc ++ [n]))). exact H1.
Qed.

(** ** One value of a [-l] option *)

Lemma number_events_length spec_strs :
  List.length (concat (map number_event spec_strs))
  = List.length (filter (fun t => bad_number t = true) spec_strs).
Proof.
  induction spec_strs as [|t ts IH]; simpl; [reflexivity|].
  rewrite length_app, IH. unfold number_event, filter. simpl.
  destruct (decide (bad_number t = true)) as [Hb|Hb].
  - rewrite Hb. reflexivity.
  - apply not_true_is_false in Hb. rewrite Hb. reflexivity.
Qed.

Lemma node_spec_events_length node_spec_strs :
  List.length (concat (map node_spec_events node_spec_strs))
  = List.length (filter (fun t => bad_number t = true)
                   (concat (map trailing node_spec_strs))).
Proof.
  induction node_spec_strs as [|g gs IH]; simpl; [reflexivity|].
  rewrite length_app, filter_app, length_app, IH.
  unfold node_spec_events. rewrite number_events_length. reflexivity.
Qed.

Lemma is_nodes_split val :
  is_nodes val = true -> Py.splitn "=" val 1 = ["nodes"; value_of val].
Proof.
  intros Hn. apply startswith_app in Hn as [r ->].
  apply (splitn1_app "=" "nodes" r). reflexivity.
Qed.

Section Values.

Context `{VscUtils}.

(** The whole effect of one value on [resource_spec] and on the events. *)
Lemma check_val_spec val :
  exists o evs,
    (forall resource_spec,
        emits (fun Job => check_val val resource_spec)
              (outcome_map (update resource_spec) o) evs)
    /\ match o with
       | Return upd =>
           well_split val = true
           /\ List.length evs = reported_values val
           /\ (sets_attribute val = true ->
               exists x, upd = Some (key_of val, x))
           /\ (sets_attribute val = false -> upd = None)
           /\ (is_nodes val = true ->
               exists node_specs,
                 upd = Some ("nodes", RNodes node_specs)
                 /\ Forall2 node_of (Py.split "+" (value_of val)) node_specs
                 /\ evs = concat (map node_spec_events
                                    (Py.split "+" (value_of val))))
           /\ (is_nodes val = false -> (List.length evs <= 1)%nat)
       | Raise e => e = ValueError /\ well_split val = false
       end.
Proof.
  unfold check_val, well_split, reported_values, sets_attribute.
  fold (is_time val) (is_size val) (is_nodes val).
  destruct (is_time val) eqn:Ht; simpl.
  { assert (is_nodes val = false) as Hn.
    { unfold is_time in Ht. apply orb_true_iff in Ht as [Ht|Ht];
        apply startswith_app in Ht as [r ->]; reflexivity. }
    destruct (one_eq val) eqn:Hone.
    - rewrite (split_one_eq _ Hone). run_m.
      destruct (walltime2seconds (value_of val)) as [seconds|].
      + exists (Return (Some (key_of val, RInt seconds))), []. split.
        * intros rs Job self. rewrite add_events_nil. reflexivity.
        * rewrite Hn. repeat split; eauto; try discriminate.
      + exists (Return None). eexists. split.
        * intros rs Job self. reflexivity.
        * rewrite Hn. repeat split; eauto; try discriminate.
    - exists (Raise ValueError), []. split; [|auto].
      intros rs Job self. rewrite add_events_nil.
      pose proof (split_not_one_eq _ Hone) as Hs. run_m.
      destruct (Py.split "=" val) as [|a [|b [|c t]]]; try reflexivity.
      exfalso. apply (Hs a b). reflexivity. }
  destruct (is_size val) eqn:Hs; simpl.
  { assert (is_nodes val = false) as Hn.
    { unfold is_size in Hs. apply orb_true_iff in Hs as [Hs|Hs];
        apply startswith_app in Hs as [r ->]; reflexivity. }
    destruct (one_eq val) eqn:Hone.
    - rewrite (split_one_eq _ Hone). run_m.
      destruct (match_size (value_of val)) as [[amount order]|].
      + exists (Return (Some (key_of val,
                  RInt (size2bytes (Py.int amount) order)))), [].
        split.
        * intros rs Job self. rewrite add_events_nil. reflexivity.
        * rewrite Hn. repeat split; eauto; try discriminate.
      + exists (Return None). eexists. split.
        * intros rs Job self. reflexivity.
        * rewrite Hn. repeat split; eauto; try discriminate.
    - exists (Raise ValueError), []. split; [|auto].
      intros rs Job self. rewrite add_events_nil.
      pose proof (split_not_one_eq _ Hone) as Hs'. run_m.
      destruct (Py.split "=" val) as [|a [|b [|c t]]]; try reflexivity.
      exfalso. apply (Hs' a b). reflexivity. }
  destruct (is_nodes val) eqn:Hn; simpl.
  { rewrite (is_nodes_split _ Hn).
    destruct (node_specs_loop_spec (Py.split "+" (value_of val)) [])
      as (o & evs & Hm & Ho).
    destruct o as [nss|e].
    - destruct Ho as (Hall & Hevs & new & Hnew & HF). simpl in Hnew. subst nss.
      exists (Return (Some ("nodes", RNodes new))), evs. split.
      + intros rs Job self. run_m. unfold parse_node_specs.
        change (for_each (Py.split "+" (value_of val))
                  (fun node_spec_str node_specs =>
                     parse_node_spec node_spec_str
                     ≫= fun node_spec => mret (node_specs ++ [node_spec])) [])
          with (for_each (Job := Job) (Py.split "+" (value_of val))
                  (node_specs_body Job) []).
        rewrite (Hm Job self). reflexivity.
      + repeat split; eauto; try discriminate.
        * rewrite Hevs. apply node_spec_events_length.
        * intros _. apply startswith_app in Hn as [r ->]. eauto.
    - exists (Raise e), evs. split; [|exact Ho].
      intros rs Job self. run_m. unfold parse_node_specs.
      change (for_each (Py.split "+" (value_of val))
                (fun node_spec_str node_specs =>
                   parse_node_spec node_spec_str
                   ≫= fun node_spec => mret (node_specs ++ [node_spec])) [])
        with (for_each (Job := Job) (Py.split "+" (value_of val))
                (node_specs_body Job) []).
      rewrite (Hm Job self). reflexivity. }
  exists (Return None). eexists. split.
  - intros rs Job self. reflexivity.
  - repeat split; eauto; discriminate.
Qed.

End Values.

(** ** The values of all [-l] options, in the order they are handled *)

Lemma for_each_app {Job A S} (xs ys : list A) (body : A -> S -> M Job S) :
  forall acc self,
    for_each (xs ++ ys) body acc self
    = (for_each xs body acc ≫= for_each ys body) self.
Proof.
  induction xs as [|x xs IH]; intros acc self; simpl; [reflexivity|].
  unfold mbind, M_bind in *.
  destruct (body x acc self) as [[acc'|e] self1]; [apply IH | reflexivity].
Qed.

Lemma for_each_concat {Job A S} (xss : list (list A)) (body : A -> S -> M Job S) :
  forall acc self,
    for_each (concat xss) body acc self
    = for_each xss (fun xs acc => for_each xs body acc) acc self.
Proof.
  induction xss as [|xs xss IH]; intros acc self; simpl; [reflexivity|].
  rewrite for_each_app. unfold mbind, M_bind.
  destruct (for_each xs body acc self) as [[acc'|e] self1];
    [apply IH | reflexivity].
Qed.

Lemma for_each_map {Job A B S} (f : A -> B) (xs : list A)
  (body : B -> S -> M Job S) :
  forall acc self,
    for_each (map f xs) body acc self
    = for_each xs (fun x acc => body (f x) acc) acc self.
Proof.
  induction xs as [|x xs IH]; intros acc self; simpl; [reflexivity|].
  unfold mbind, M_bind.
  destruct (body (f x) acc self) as [[acc'|e] self1]; [apply IH | reflexivity].
Qed.

(** The two nested loops are one loop over the values in order. *)
Lemma check_l_loop_sub_clauses `{VscUtils} {Job} vals (self : PbsOptionParser Job) :
  check_l_loop vals self = for_each (sub_clauses vals) check_val ∅ self.
Proof.
  unfold check_l_loop, sub_clauses.
  rewrite for_each_concat, for_each_map, for_each_map. reflexivity.
Qed.

(** A loop over values that returns went through every value: each one
    returned, registered its events after those of the values before it, and
    handed its dictionary to the next. *)
Lemma for_each_check_val `{VscUtils} vals : forall rs,
  exists o evs,
    emits (fun Job => for_each vals check_val rs) o evs
    /\ match o with
       | Return _ => forallb well_split vals = true
       | Raise e => e = ValueError /\ forallb well_split vals = false
       end.
Proof.
  induction vals as [|v vs IH]; intros rs; simpl.
  - exists (Return rs), []. split; [apply emits_ret | reflexivity].
  - destruct (check_val_spec v) as (o1 & evs1 & H1 & Ho1).
    destruct o1 as [upd|e].
    + destruct Ho1 as (Hw & _). rewrite Hw.
      destruct (IH (update rs upd)) as (o & evs & H2 & Ho).
      exists o, (evs1 ++ evs). split; [|exact Ho].
      apply (emits_bind (fun Job => check_val v rs)
               (fun Job acc => for_each vs check_val acc)
               (update rs upd) evs1 o evs (H1 rs) H2).
    + destruct Ho1 as (-> & Hw). rewrite Hw.
      exists (Raise ValueError), evs1. split; [|auto].
      apply (emits_bind_raise (fun Job => check_val v rs)
               (fun Job acc => for_each vs check_val acc) _ _ (H1 rs)).
Qed.

(** A value returns exactly when it holds no ['='] beyond the one that ends
    a name; otherwise it raises [ValueError]. *)
Lemma check_val_returns_iff `{VscUtils} val rs {Job}
  (self : PbsOptionParser Job) :
  match fst (check_val val rs self) with
  | Return _ => well_split val = true
  | Raise e => e = ValueError /\ well_split val = false
  end.
Proof.
  destruct (check_val_spec val) as (o & evs & Hm & Ho).
  rewrite (Hm rs Job self). destruct o as [upd|e]; simpl.
  - apply Ho.
  - exact Ho.
Qed.

(** The loops of [check_l] return a dictionary exactly when every value is
    split well; otherwise they raise [ValueError] at the first that is not. *)
Lemma check_l_loop_returns_iff `{VscUtils} vals {Job}
  (self : PbsOptionParser Job) :
  match fst (check_l_loop vals self) with
  | Return _ => forallb well_split (sub_clauses vals) = true
  | Raise e => e = ValueError /\ forallb well_split (sub_clauses vals) = false
  end.
Proof.
  rewrite check_l_loop_sub_clauses.
  destruct (for_each_check_val (sub_clauses vals) ∅) as (o & evs & Hm & Ho).
  rewrite (Hm Job self). exact Ho.
Qed.

(** * The claims *)

(** ** C1: a second ['='] in a time or a size *)

(** C1.  The claim says that no malformed value makes the parse raise, also
    not one with a second ['='] such as [mem=1=2] or [walltime=1=2].  On
    these two inputs [check_l] raises [ValueError] when it unpacks
    [val.split('=')] into two names; no event is registered, the value that
    follows is not handled and the job receives no resource specification.
    The [nodes=] branch splits once only and does not raise there. *)
Theorem check_l_second_equals_raises :
  forall (U : VscUtils) (Job : Type) (E : Environment Job)
         (self : PbsOptionParser Job),
    check_l ["mem=1=2"] self = (Raise ValueError, self)
    /\ check_l ["walltime=1=2"] self = (Raise ValueError, self)
    /\ check_l ["mem=1=2,foo=bar"] self = (Raise ValueError, self)
    /\ Py.split "=" "mem=1=2" = ["mem"; "1"; "2"]
    /\ Py.splitn "=" "nodes=1=2" 1 = ["nodes"; "1=2"].
Proof.
  intros U Job E self.
  split; [reflexivity | split; [reflexivity | split; [reflexivity|]]].
  split; reflexivity.
Qed.

(** ** C2: text after a size *)

(** What matches the anchored pattern matches the pattern of the code, with
    the same groups; the converse fails on text after the size. *)
Lemma match_size_anchored_match_size s r :
  match_size_anchored s = Some r -> match_size s = Some r.
Proof.
  unfold match_size_anchored, match_size.
  destruct (Py.span_digits s) as [[|d ds] [|order [|b rest]]];
    try discriminate.
  destruct (existsb (Ascii.eqb order) ["k"; "m"; "g"; "t"]%char
            && existsb (Ascii.eqb b) ["b"; "w"]%char); simpl;
    [|discriminate].
  destruct (Py.at_end rest); [intros Hr; exact Hr | discriminate].
Qed.

(** C2.  The claim says that [mem] is set exactly when the value matches the
    anchored pattern, and that [mem=4gbx] gives an [invalid_mem_format]
    event.  The value [4gbx] does not match the anchored pattern, yet the
    pattern of the code has no [$] and matches it: [mem] is set to the bytes
    of 4g and no event is registered. *)
Theorem check_l_size_with_trailing_text :
  match_size_anchored "4gbx" = None
  /\ match_size "4gbx" = Some ("4", "g")
  /\ forall (U : VscUtils) (Job : Type) (self : PbsOptionParser Job),
       check_l_loop ["mem=4gbx"] self
       = (Return {[ "mem" := RInt (size2bytes 4 "g") ]}, self).
Proof.
  split; [reflexivity | split; [reflexivity|]].
  intros U Job self. reflexivity.
Qed.

(** ** C6: a second ['='] in a number specification *)

(** C6.  The claim says that a [ppn=<value>] whose value is not all digits
    gives one [ppn_no_number] event holding the value.  For the value [a=b],
    which is not all digits, [check_l] raises [ValueError] when it unpacks
    [spec_str.split('=')] into two names, and registers no event. *)
Theorem check_l_number_second_equals_raises :
  Py.isdigit "a=b" = false
  /\ forall (U : VscUtils) (Job : Type) (self : PbsOptionParser Job),
       check_l_loop ["nodes=2:ppn=a=b"] self = (Raise ValueError, self).
Proof.
  split; [reflexivity|]. intros U Job self. reflexivity.
Qed.

(** ** Values that begin with [nodes=] *)

(** A [nodes=] either returns, with one dictionary per node specification
    that holds its count and host, or raises [ValueError] at a number
    specification with a second ['=']. *)
Lemma check_val_nodes `{VscUtils} val rs {Job} (self : PbsOptionParser Job) :
  Py.startswith "nodes=" val = true ->
  match check_val val rs self with
  | (Return rs', self') =>
      well_split val = true
      /\ exists node_specs,
           rs' = <["nodes" := RNodes node_specs]> rs
           /\ Forall2 node_of (Py.split "+" (value_of val)) node_specs
           /\ self' = add_events
                        (concat (map node_spec_events
                                   (Py.split "+" (value_of val)))) self
  | (Raise e, _) => e = ValueError /\ well_split val = false
  end.
Proof.
  intros Hn. destruct (check_val_spec val) as (o & evs & Hm & Ho).
  rewrite (Hm rs Job self). destruct o as [upd|e]; simpl; [|exact Ho].
  destruct Ho as (Hw & _ & _ & _ & Hnodes & _).
  destruct (Hnodes Hn) as (nss & -> & HF & ->).
  split; [exact Hw|]. exists nss. auto.
Qed.

(** ** C3: the count of a node specification *)

(** C3, as stated, fails: [nodes=0] gives a node specification whose count
    is 0. *)
Lemma nodes_zero_count :
  exists node_spec,
    run_l ["nodes=0"] = (Return {[ "nodes" := RNodes [node_spec] ]}, fresh)
    /\ node_spec !! "nodes" = Some (NInt 0)
    /\ ~ count_at_least_one node_spec.
Proof.
  exists (<["nodes" := NInt 0]> {[ "features" := NList [] ]}).
  split; [vm_compute; reflexivity|]. split; [reflexivity|].
  intros (n & Hn & Hle). vm_compute in Hn. inversion Hn. subst n. lia.
Qed.

(** C3, amended.  Every node specification of a [nodes=] value that is
    parsed holds a count that is not negative: the number its leading
    specification denotes when that is all digits, and 1 otherwise.  The
    count is 1 at least unless the leading specification is all digits and
    denotes zero. *)
Theorem node_count_not_negative (U : VscUtils) (val : string)
  (rs rs' : gmap string rval) (Job : Type) (self self' : PbsOptionParser Job) :
  Py.startswith "nodes=" val = true ->
  check_val val rs self = (Return rs', self') ->
  exists node_specs,
    rs' !! "nodes" = Some (RNodes node_specs)
    /\ Forall2
         (fun node_spec_str node_spec =>
            exists n,
              node_spec !! "nodes" = Some (NInt n)
              /\ n = node_count node_spec_str
              /\ 0 <= n
              /\ (1 <= n <->
                  ~ (Py.isdigit (leading node_spec_str) = true
                     /\ Py.int (leading node_spec_str) = 0)))
         (Py.split "+" (value_of val)) node_specs.
Proof.
  intros Hn Hrun. pose proof (check_val_nodes val rs self Hn) as Hspec.
  rewrite Hrun in Hspec. destruct Hspec as (_ & nss & -> & HF & _).
  exists nss. split; [apply lookup_insert_eq|].
  eapply Forall2_impl; [exact HF|].
  intros g ns [Hcount _]. exists (node_count g).
  split; [exact Hcount|]. split; [reflexivity|].
  unfold node_count. destruct (Py.isdigit (leading g)) eqn:Hd.
  - pose proof (int_nonneg _ Hd). split; [lia|]. split.
    + intros Hle [_ Hz]. lia.
    + intros Hnz. destruct (Z.eq_dec (Py.int (leading g)) 0); [|lia].
      exfalso. apply Hnz. auto.
  - split; [lia|]. split; [intros _ [Hf _]; discriminate | lia].
Qed.

Lemma node_count_not_negative_witness :
  exists node_specs,
    (<["nodes" := RNodes
         [<["nodes" := NInt 0]> {[ "features" := NList [] ]};
          <["ppn" := NInt 4]>
            (<["nodes" := NInt 3]> {[ "features" := NList [] ]})]]>
       (∅ : gmap string rval)) !! "nodes" = Some (RNodes node_specs)
    /\ Forall2
         (fun node_spec_str node_spec =>
            exists n,
              node_spec !! "nodes" = Some (NInt n)
              /\ n = node_count node_spec_str
              /\ 0 <= n
              /\ (1 <= n <->
                  ~ (Py.isdigit (leading node_spec_str) = true
                     /\ Py.int (leading node_spec_str) = 0)))
         (Py.split "+" (value_of "nodes=0+3:ppn=4")) node_specs.
Proof.
  apply (node_count_not_negative spec_utils "nodes=0+3:ppn=4" ∅ _ unit
           fresh fresh).
  - reflexivity.
  - vm_compute. reflexivity.
Defined.

(** ** C5: the leading specification of a node specification *)

(** C5.  For every node specification of a [nodes=] value: when the leading
    specification is all digits the count is that number and no host is
    recorded, otherwise the count is 1 and the leading specification is the
    host.  The parse of the value returns these dictionaries unless a number
    specification holds a second ['='], where it raises [ValueError]. *)
Theorem leading_spec_is_count_or_host (U : VscUtils) (val : string)
  (rs : gmap string rval) (Job : Type) (self : PbsOptionParser Job) :
  Py.startswith "nodes=" val = true ->
  match check_val val rs self with
  | (Return rs', _) =>
      exists node_specs,
        rs' = <["nodes" := RNodes node_specs]> rs
        /\ Forall2
             (fun node_spec_str node_spec =>
                if Py.isdigit (leading node_spec_str) then
                  node_spec !! "nodes"
                    = Some (NInt (Py.int (leading node_spec_str)))
                  /\ node_spec !! "host" = None
                else
                  node_spec !! "nodes" = Some (NInt 1)
                  /\ node_spec !! "host"
                     = Some (NStr (leading node_spec_str)))
             (Py.split "+" (value_of val)) node_specs
  | (Raise e, _) => e = ValueError /\ well_split val = false
  end.
Proof.
  intros Hn. pose proof (check_val_nodes val rs self Hn) as Hspec.
  destruct (check_val val rs self) as [[rs'|e] self']; [|exact Hspec].
  destruct Hspec as (_ & nss & -> & HF & _). exists nss.
  split; [reflexivity|]. eapply Forall2_impl; [exact HF|].
  intros g ns [Hcount Hhost]. unfold node_count, node_host in *.
  destruct (Py.isdigit (leading g)); auto.
Qed.

Lemma leading_spec_is_count_or_host_witness :
  match check_val (H := spec_utils) "nodes=12:ppn=4+node07:bigmem" ∅ fresh with
  | (Return rs', _) =>
      exists node_specs,
        rs' = <["nodes" := RNodes node_specs]> ∅
        /\ Forall2
             (fun node_spec_str node_spec =>
                if Py.isdigit (leading node_spec_str) then
                  node_spec !! "nodes"
                    = Some (NInt (Py.int (leading node_spec_str)))
                  /\ node_spec !! "host" = None
                else
                  node_spec !! "nodes" = Some (NInt 1)
                  /\ node_spec !! "host"
                     = Some (NStr (leading node_spec_str)))
             (Py.split "+" (value_of "nodes=12:ppn=4+node07:bigmem"))
             node_specs
  | (Raise e, _) =>
      e = ValueError /\ well_split "nodes=12:ppn=4+node07:bigmem" = false
  end.
Proof.
  apply (leading_spec_is_count_or_host spec_utils
           "nodes=12:ppn=4+node07:bigmem" ∅ unit fresh).
  reflexivity.
Defined.

Example leading_spec_example :
  run_l ["nodes=12:ppn=4+node07:bigmem"] =
  (Return {[ "nodes" := RNodes
     [ <["ppn" := NInt 4]> (<["nodes" := NInt 12]> {[ "features" := NList [] ]});
       <["host" := NStr "node07"]>
         (<["nodes" := NInt 1]> {[ "features" := NList ["bigmem"] ]}) ] ]},
   fresh).
Proof. vm_compute. reflexivity. Qed.

(** ** C4: the events of one value *)

(** C4, as stated, fails: the one value [nodes=2:ppn=a:gpus=b] registers two
    events. *)
Lemma nodes_value_two_events :
  _events (snd (run_l ["nodes=2:ppn=a:gpus=b"]))
  = [mkEvent "ppn_no_number" {[ "number" := "a" ]};
     mkEvent "gpus_no_number" {[ "number" := "b" ]}]
  /\ List.length (_events (snd (run_l ["nodes=2:ppn=a:gpus=b"]))) <> 1%nat.
Proof.
  split; [vm_compute; reflexivity | vm_compute; discriminate].
Qed.

Lemma malformed_reported `{VscUtils} val :
  no_trailing_text val = true -> malformed_values val = reported_values val.
Proof.
  unfold no_trailing_text, malformed_values, reported_values.
  destruct (is_time val); [reflexivity|].
  destruct (is_size val); [|reflexivity]. simpl.
  destruct (match_size (value_of val)) as [r|] eqn:Hcode.
  - intros Hsome. apply bool_decide_eq_true in Hsome as [r' Hr'].
    rewrite Hr'. reflexivity.
  - intros _.
    destruct (match_size_anchored (value_of val)) as [r|] eqn:Hspec;
      [|reflexivity].
    apply match_size_anchored_match_size in Hspec. congruence.
Qed.

(** C4, amended.  A value with no ['='] beyond the one that ends a name, and
    with no text after the size of a [mem=] or [pmem=], registers exactly
    one event per malformed value in it: one for a time the converter
    rejects, for a size that does not match the pattern and for an unknown
    name, each of which sets nothing, and for a [nodes=] one per number
    specification whose value is not all digits, which may be none or
    several.  The loop then goes on with the values that follow. *)
Theorem one_event_per_malformed_value (U : VscUtils) (val : string)
  (rest : list string) (rs : gmap string rval) (Job : Type)
  (self : PbsOptionParser Job) :
  well_split val = true ->
  no_trailing_text val = true ->
  exists rs' evs,
    check_val val rs self = (Return rs', add_events evs self)
    /\ List.length evs = malformed_values val
    /\ (Py.startswith "nodes=" val = false ->
        (malformed_values val <= 1)%nat
        /\ (malformed_values val = 1%nat -> rs' = rs))
    /\ for_each (val :: rest) check_val rs self
       = for_each rest check_val rs' (add_events evs self).
Proof.
  intros Hw Htext. rewrite (malformed_reported val Htext).
  destruct (check_val_spec val) as (o & evs & Hm & Ho).
  destruct o as [upd|e]; [|destruct Ho as [_ Hf]; congruence].
  destruct Ho as (_ & Hlen & Hset & Hunset & _ & Hle).
  exists (update rs upd), evs. split; [apply (Hm rs Job self)|].
  split; [exact Hlen|]. split.
  - intros Hn. fold (is_nodes val) in Hn. split.
    + rewrite <- Hlen. apply Hle. exact Hn.
    + intros Hone. rewrite Hunset; [reflexivity|].
      unfold sets_attribute, reported_values in *. rewrite Hn in *.
      destruct (is_time val).
      * destruct (walltime2seconds (value_of val)); [discriminate|reflexivity].
      * destruct (is_size val); [|reflexivity].
        destruct (match_size (value_of val)); [discriminate|reflexivity].
  - simpl. unfold mbind, M_bind. rewrite (Hm rs Job self). reflexivity.
Qed.

Lemma one_event_per_malformed_value_witness :
  (exists rs' evs,
      check_val (H := spec_utils) "nodes=2:ppn=a:gpus=b" ∅ fresh
      = (Return rs', add_events evs fresh)
      /\ List.length evs = 2%nat
      /\ for_each ["nodes=2:ppn=a:gpus=b"; "mem=4gx"]
           (check_val (H := spec_utils)) ∅ fresh
         = for_each ["mem=4gx"] (check_val (H := spec_utils)) rs'
             (add_events evs fresh))
  /\ (exists rs' evs,
         check_val (H := spec_utils) "mem=4gx" ∅ fresh
         = (Return rs', add_events evs fresh)
         /\ List.length evs = 1%nat
         /\ rs' = ∅
         /\ for_each ["mem=4gx"; "walltime=x"; "foo"]
              (check_val (H := spec_utils)) ∅ fresh
            = for_each ["walltime=x"; "foo"] (check_val (H := spec_utils)) rs'
                (add_events evs fresh)).
Proof.
  split.
  - destruct (one_event_per_malformed_value spec_utils
                "nodes=2:ppn=a:gpus=b" ["mem=4gx"] ∅ unit fresh
                eq_refl eq_refl) as (rs' & evs & Hrun & Hlen & _ & Hnext).
    exists rs', evs. split; [exact Hrun|]. split; [exact Hlen | exact Hnext].
  - destruct (one_event_per_malformed_value spec_utils
                "mem=4gx" ["walltime=x"; "foo"] ∅ unit fresh
                eq_refl eq_refl) as (rs' & evs & Hrun & Hlen & Hone & Hnext).
    exists rs', evs. split; [exact Hrun|]. split; [exact Hlen|].
    split; [exact (proj2 (Hone eq_refl) eq_refl) | exact Hnext].
Defined.

Example malformed_values_examples :
  malformed_values (H := spec_utils) "nodes=2:ppn=a:gpus=b" = 2%nat
  /\ malformed_values (H := spec_utils) "mem=x" = 1%nat
  /\ malformed_values (H := spec_utils) "mem=4gbx" = 1%nat
  /\ reported_values (H := spec_utils) "mem=4gbx" = 0%nat
  /\ no_trailing_text "mem=4gbx" = false
  /\ malformed_values (H := spec_utils) "walltime=1:2:3:4" = 1%nat
  /\ malformed_values (H := spec_utils) "walltime=01:30:00" = 0%nat
  /\ malformed_values (H := spec_utils) "foo=bar" = 1%nat.
Proof. repeat split. Qed.

(** ** C7: several values for one attribute *)

(** A value writes what it assigns over the dictionary it is given. *)
Lemma check_val_assigned `{VscUtils} val rs {Job}
  (self self' : PbsOptionParser Job) rs' :
  check_val val rs self = (Return rs', self') ->
  rs' = assigned_by val ∪ rs.
Proof.
  intros Hrun. destruct (check_val_spec val) as (o & evs & Hm & _).
  unfold assigned_by. rewrite (Hm ∅ unit fresh).
  rewrite (Hm rs Job self) in Hrun.
  destruct o as [[[a x]|]|e]; simpl in *; inversion Hrun; subst.
  - rewrite insert_empty. apply insert_union_singleton_l.
  - symmetry. apply (left_id_L ∅ (∪)).
Qed.

Lemma for_each_check_val_lookup `{VscUtils} {Job} vals a : forall rs
  (self self' : PbsOptionParser Job) rs',
  for_each vals check_val rs self = (Return rs', self') ->
  Forall (fun w => assigned_by w !! a = None) vals ->
  rs' !! a = rs !! a.
Proof.
  induction vals as [|v vs IH]; intros rs self self' rs' Hrun Hall.
  - simpl in Hrun. inversion Hrun. reflexivity.
  - simpl in Hrun. unfold mbind, M_bind in Hrun.
    destruct (check_val v rs self) as [[rs1|e] self1] eqn:Hv; [|discriminate].
    inversion Hall as [|? ? Hnone Hrest]; subst.
    rewrite (IH _ _ _ _ Hrun Hrest).
    rewrite (check_val_assigned _ _ _ _ _ Hv).
    rewrite lookup_union_r; [reflexivity | exact Hnone].
Qed.

(** C7.  When the values of a parse that returns hold several that set one
    attribute, the dictionary holds one value under that name, the one that
    the last of them assigns: if [v] assigns [x] to [a] and no value after
    [v] assigns anything to [a], then [x] is what the dictionary holds under
    [a], whatever the values before [v] assigned. *)
Theorem last_value_wins (U : VscUtils) (vals pre post : list string)
  (v a : string) (x : rval) (Job : Type) (self self' : PbsOptionParser Job)
  (rs' : gmap string rval) :
  sub_clauses vals = pre ++ v :: post ->
  check_l_loop vals self = (Return rs', self') ->
  assigned_by v !! a = Some x ->
  Forall (fun w => assigned_by w !! a = None) post ->
  rs' !! a = Some x /\ forall y, rs' !! a = Some y -> y = x.
Proof.
  intros Hsub Hrun Hv Hpost.
  rewrite check_l_loop_sub_clauses, Hsub, for_each_app in Hrun.
  unfold mbind, M_bind in Hrun.
  destruct (for_each pre check_val ∅ self) as [[rs0|e] self0]; [|discriminate].
  simpl in Hrun. unfold mbind, M_bind in Hrun.
  destruct (check_val v rs0 self0) as [[rs1|e] self1] eqn:Hstep;
    [|discriminate].
  assert (rs' !! a = Some x) as Hx.
  { rewrite (for_each_check_val_lookup _ _ _ _ _ _ Hrun Hpost).
    rewrite (check_val_assigned _ _ _ _ _ Hstep).
    apply lookup_union_Some_l. exact Hv. }
  split; [exact Hx|]. intros y Hy. congruence.
Qed.

Lemma last_value_wins_witness :
  (<["mem" := RInt 2147483648]>
     (<["walltime" := RInt 10]> {[ "mem" := RInt 1073741824 ]})
   : gmap string rval) !! "mem" = Some (RInt 2147483648)
  /\ forall y,
       (<["mem" := RInt 2147483648]>
          (<["walltime" := RInt 10]> {[ "mem" := RInt 1073741824 ]})
        : gmap string rval) !! "mem" = Some y ->
       y = RInt 2147483648.
Proof.
  apply (last_value_wins spec_utils ["mem=1gb,walltime=10"; "mem=2gb, foo"]
           ["mem=1gb"; "walltime=10"] ["foo"] "mem=2gb" "mem"
           (RInt 2147483648) unit fresh
           (add_events [mkEvent "unknown_resource_spec" {[ "spec" := "foo" ]}]
              fresh)).
  - reflexivity.
  - vm_compute. reflexivity.
  - vm_compute. reflexivity.
  - repeat constructor.
Defined.

Example two_mem_values :
  run_l ["mem=1gb,mem=2gb"] = (Return {[ "mem" := RInt 2147483648 ]}, fresh)
  /\ run_l ["mem=2gb"; "mem=1gb"]
     = (Return {[ "mem" := RInt 1073741824 ]}, fresh).
Proof. split; vm_compute; reflexivity. Qed.

(** ** C8 and C10: values whose name is unknown *)

(** The body of the loops on a value that begins with none of the five
    names. *)
Lemma check_val_unknown `{VscUtils} (val : string) (rs : gmap string rval)
  {Job} (self : PbsOptionParser Job) :
  Py.startswith "walltime=" val = false ->
  Py.startswith "cput=" val = false ->
  Py.startswith "mem=" val = false ->
  Py.startswith "pmem=" val = false ->
  Py.startswith "nodes=" val = false ->
  check_val val rs self
  = (Return rs, add_events [unknown_resource_spec val] self).
Proof.
  intros Hw Hc Hm Hp Hn. unfold check_val.
  rewrite Hw, Hc, Hm, Hp, Hn. reflexivity.
Qed.

Example unknown_value_example :
  run_l ["foo=bar"]
  = (Return ∅, mkParser tt [unknown_resource_spec "foo=bar"]).
Proof. vm_compute. reflexivity. Qed.

Lemma sub_clauses_app vals1 vals2 :
  sub_clauses (vals1 ++ vals2) = sub_clauses vals1 ++ sub_clauses vals2.
Proof. unfold sub_clauses. rewrite map_app, concat_app. reflexivity. Qed.

(** The values the loops handle, around one piece of one [-l] option. *)
Lemma sub_clauses_piece before val_str after pieces_pre piece pieces_post :
  Py.split "," (Py.strip val_str) = pieces_pre ++ piece :: pieces_post ->
  sub_clauses (before ++ val_str :: after)
  = (sub_clauses before ++ map Py.strip pieces_pre)
    ++ Py.strip piece :: (map Py.strip pieces_post ++ sub_clauses after).
Proof.
  intros Hsplit. rewrite sub_clauses_app.
  change (sub_clauses (val_str :: after))
    with (map Py.strip (Py.split "," (Py.strip val_str)) ++ sub_clauses after).
  rewrite Hsplit, map_app. simpl. rewrite <- !app_assoc. reflexivity.
Qed.

(** The loops of [check_l] at a value that begins with none of the five
    names: when the values before it have returned, it adds its one event
    to theirs and hands their dictionary on to the values after it. *)
Lemma check_l_loop_unknown_at `{VscUtils} {Job} vals pre v post
  (self : PbsOptionParser Job) :
  sub_clauses vals = pre ++ v :: post ->
  Py.startswith "walltime=" v = false ->
  Py.startswith "cput=" v = false ->
  Py.startswith "mem=" v = false ->
  Py.startswith "pmem=" v = false ->
  Py.startswith "nodes=" v = false ->
  match for_each pre check_val ∅ self with
  | (Return rs, self1) =>
      check_l_loop vals self
      = for_each post check_val rs
          (add_events [unknown_resource_spec v] self1)
  | (Raise e, self1) =>
      e = ValueError /\ check_l_loop vals self = (Raise e, self1)
  end.
Proof.
  intros Hsub Hw Hc Hm Hp Hn.
  rewrite check_l_loop_sub_clauses, Hsub, for_each_app.
  unfold mbind, M_bind.
  destruct (for_each_check_val pre ∅) as (o & evs & Hrun & Ho).
  rewrite (Hrun Job (self)). destruct o as [rs|e].
  - simpl. unfold mbind, M_bind.
    rewrite (check_val_unknown v rs _ Hw Hc Hm Hp Hn). reflexivity.
  - destruct Ho as [-> _]. split; reflexivity.
Qed.

(** C8, as stated, fails.  The split on [','] of [foo, walltime=10] leaves
    the piece [ walltime=10], which begins with a blank and so with none of
    the five names; yet it sets [walltime] and has no event of its own.  And
    the event of the piece [foo=bar ] holds [foo=bar], not the piece. *)
Lemma raw_sub_clause_is_stripped :
  Py.split "," "foo, walltime=10" = ["foo"; " walltime=10"]
  /\ (Py.startswith "walltime=" " walltime=10"
      || Py.startswith "cput=" " walltime=10"
      || Py.startswith "mem=" " walltime=10"
      || Py.startswith "pmem=" " walltime=10"
      || Py.startswith "nodes=" " walltime=10") = false
  /\ run_l ["foo, walltime=10"]
     = (Return {[ "walltime" := RInt 10 ]},
        mkParser tt [unknown_resource_spec "foo"])
  /\ Py.split "," "foo=bar ,x" = ["foo=bar "; "x"]
  /\ run_l ["foo=bar ,x"]
     = (Return ∅,
        mkParser tt [unknown_resource_spec "foo=bar";
                     unknown_resource_spec "x"])
  /\ unknown_resource_spec "foo=bar" <> unknown_resource_spec "foo=bar ".
Proof.
  split; [reflexivity|]. split; [reflexivity|].
  split; [vm_compute; reflexivity|]. split; [reflexivity|].
  split; [vm_compute; reflexivity|].
  intros Heq. apply (f_equal (fun e => extra e !! "spec")) in Heq.
  vm_compute in Heq. discriminate.
Qed.

(** C8, amended.  Take any piece that the split on [','] of any stripped
    [-l] option leaves.  When the piece, once stripped, begins with none of
    [walltime=], [cput=], [mem=], [pmem=] and [nodes=], and the values
    before it have returned, the loops of [check_l] register for it exactly
    one [unknown_resource_spec] event, whose [spec] is the stripped piece,
    after the events of the values before it, and hand the dictionary of
    those values unchanged to the values after it.  When a value before it
    raises, the loops raise the same [ValueError]. *)
Theorem unknown_sub_clause_one_event (U : VscUtils)
  (before after pieces_pre pieces_post : list string)
  (val_str piece : string) (Job : Type) (self : PbsOptionParser Job) :
  Py.split "," (Py.strip val_str) = pieces_pre ++ piece :: pieces_post ->
  Py.startswith "walltime=" (Py.strip piece) = false ->
  Py.startswith "cput=" (Py.strip piece) = false ->
  Py.startswith "mem=" (Py.strip piece) = false ->
  Py.startswith "pmem=" (Py.strip piece) = false ->
  Py.startswith "nodes=" (Py.strip piece) = false ->
  match
    for_each (sub_clauses before ++ map Py.strip pieces_pre) check_val ∅ self
  with
  | (Return rs, self1) =>
      check_l_loop (before ++ val_str :: after) self
      = for_each (map Py.strip pieces_post ++ sub_clauses after) check_val rs
          (add_events [unknown_resource_spec (Py.strip piece)] self1)
  | (Raise e, self1) =>
      e = ValueError
      /\ check_l_loop (before ++ val_str :: after) self = (Raise e, self1)
  end.
Proof.
  intros Hsplit Hw Hc Hm Hp Hn.
  apply check_l_loop_unknown_at; try assumption.
  apply sub_clauses_piece. exact Hsplit.
Qed.

Lemma unknown_sub_clause_one_event_witness :
  match
    for_each (sub_clauses ["walltime=10"] ++ map Py.strip ["x "])
      (check_val (H := spec_utils)) ∅ fresh
  with
  | (Return rs, self1) =>
      check_l_loop (H := spec_utils)
        (["walltime=10"] ++ " x , foo=bar ,mem=1gb " :: ["nodes=2"]) fresh
      = for_each (map Py.strip ["mem=1gb"] ++ sub_clauses ["nodes=2"])
          (check_val (H := spec_utils)) rs
          (add_events [unknown_resource_spec (Py.strip " foo=bar ")] self1)
  | (Raise e, self1) =>
      e = ValueError
      /\ check_l_loop (H := spec_utils)
           (["walltime=10"] ++ " x , foo=bar ,mem=1gb " :: ["nodes=2"]) fresh
         = (Raise e, self1)
  end.
Proof.
  apply (unknown_sub_clause_one_event spec_utils ["walltime=10"] ["nodes=2"]
           ["x "] ["mem=1gb"] " x , foo=bar ,mem=1gb " " foo=bar "
           unit fresh); reflexivity.
Defined.

Example unknown_sub_clause_example :
  run_l ["walltime=10"; " x , foo=bar ,mem=1gb "; "nodes=2"]
  = (Return
       (<["nodes" := RNodes [<["nodes" := NInt 2]> {[ "features" := NList [] ]}]]>
          (<["mem" := RInt 1073741824]> {[ "walltime" := RInt 10 ]})),
     mkParser tt [unknown_resource_spec "x"; unknown_resource_spec "foo=bar"]).
Proof. vm_compute. reflexivity. Qed.

(** C10.  Take any piece that the split on [','] of any stripped [-l]
    option leaves and that is empty, or blank and so empty once stripped:
    the piece after a comma at the end, between two commas in a row, or the
    whole of an empty option.  When the values before it have returned, the
    loops of [check_l] register for it exactly one [unknown_resource_spec]
    event whose [spec] is the empty string, after the events of the values
    before it, and hand the dictionary of those values unchanged to the
    values after it.  When a value before it raises, the loops raise the
    same [ValueError]. *)
Theorem empty_sub_clause_unknown (U : VscUtils)
  (before after pieces_pre pieces_post : list string)
  (val_str piece : string) (Job : Type) (self : PbsOptionParser Job) :
  Py.split "," (Py.strip val_str) = pieces_pre ++ piece :: pieces_post ->
  Py.strip piece = EmptyString ->
  match
    for_each (sub_clauses before ++ map Py.strip pieces_pre) check_val ∅ self
  with
  | (Return rs, self1) =>
      check_l_loop (before ++ val_str :: after) self
      = for_each (map Py.strip pieces_post ++ sub_clauses after) check_val rs
          (add_events [unknown_resource_spec EmptyString] self1)
  | (Raise e, self1) =>
      e = ValueError
      /\ check_l_loop (before ++ val_str :: after) self = (Raise e, self1)
  end.
Proof.
  intros Hsplit Hempty.
  pose proof (sub_clauses_piece before val_str after _ _ _ Hsplit) as Hsub.
  rewrite Hempty in Hsub.
  apply (check_l_loop_unknown_at _ _ EmptyString _ self Hsub); reflexivity.
Qed.

Lemma empty_sub_clause_unknown_witness :
  match
    for_each (sub_clauses ["nodes=1"] ++ map Py.strip ["walltime=3600"])
      (check_val (H := spec_utils)) ∅ fresh
  with
  | (Return rs, self1) =>
      check_l_loop (H := spec_utils)
        (["nodes=1"] ++ "walltime=3600,,mem=1gb" :: ["cput=5,"]) fresh
      = for_each (map Py.strip ["mem=1gb"] ++ sub_clauses ["cput=5,"])
          (check_val (H := spec_utils)) rs
          (add_events [unknown_resource_spec EmptyString] self1)
  | (Raise e, self1) =>
      e = ValueError
      /\ check_l_loop (H := spec_utils)
           (["nodes=1"] ++ "walltime=3600,,mem=1gb" :: ["cput=5,"]) fresh
         = (Raise e, self1)
  end.
Proof.
  apply (empty_sub_clause_unknown spec_utils ["nodes=1"] ["cput=5,"]
           ["walltime=3600"] ["mem=1gb"] "walltime=3600,,mem=1gb" EmptyString
           unit fresh); reflexivity.
Defined.

Example empty_sub_clause_examples :
  run_l ["walltime=3600,,mem=1gb"]
  = (Return (<["mem" := RInt 1073741824]> {[ "walltime" := RInt 3600 ]}),
     mkParser tt [unknown_resource_spec EmptyString])
  /\ run_l ["mem=1gb,"]
     = (Return {[ "mem" := RInt 1073741824 ]},
        mkParser tt [unknown_resource_spec EmptyString])
  /\ run_l [EmptyString]
     = (Return ∅, mkParser tt [unknown_resource_spec EmptyString])
  /\ run_l [" , "]
     = (Return ∅,
        mkParser tt [unknown_resource_spec EmptyString;
                     unknown_resource_spec EmptyString]).
Proof. repeat split; vm_compute; reflexivity. Qed.

(** ** C9: the events at the start of a parse *)

Section Appending.

Context {Job : Type} `{VscUtils} `{Environment Job}.

Lemma appending_ret {A} (a : A) : appending (Job := Job) (mret a).
Proof.
  exists (Return a), (fun job => job), []. intros [job evs]. simpl.
  rewrite app_nil_r. reflexivity.
Qed.

Lemma appending_raise {A} e : appending (Job := Job) (raise (A := A) e).
Proof.
  exists (Raise e), (fun job => job), []. intros [job evs]. simpl.
  rewrite app_nil_r. reflexivity.
Qed.

Lemma appending_reg_event ev ex :
  appending (Job := Job) (reg_event ev ex).
Proof.
  exists (Return tt), (fun job => job), [mkEvent ev ex]. intros self.
  reflexivity.
Qed.

Lemma appending_modify_job f : appending (Job := Job) (modify_job f).
Proof.
  exists (Return tt), f, []. intros [job evs]. unfold modify_job. simpl.
  rewrite app_nil_r. reflexivity.
Qed.

Lemma appending_bind {A B} (m : M Job A) (k : A -> M Job B) :
  appending m -> (forall a, appending (k a)) -> appending (m ≫= k).
Proof.
  intros (o & f & evs & Hm) Hk. destruct o as [a|e].
  - destruct (Hk a) as (o' & f' & evs' & Hk').
    exists o', (fun job => f' (f job)), (evs ++ evs'). intros self.
    unfold mbind, M_bind. rewrite Hm, Hk'. simpl.
    rewrite app_assoc. reflexivity.
  - exists (Raise e), f, evs. intros self.
    unfold mbind, M_bind. rewrite Hm. reflexivity.
Qed.

Lemma appending_for_each {A S} (xs : list A) (body : A -> S -> M Job S) :
  (forall x acc, appending (body x acc)) ->
  forall acc, appending (for_each xs body acc).
Proof.
  intros Hbody. induction xs as [|x xs IH]; intros acc; simpl.
  - apply appending_ret.
  - apply appending_bind; [apply Hbody | exact IH].
Qed.

Lemma appending_emits {A} (m : forall Job, M Job A) o evs :
  emits m o evs -> appending (m Job).
Proof.
  intros Hm. exists o, (fun job => job), evs. intros self. apply Hm.
Qed.

Lemma appending_check_l vals : appending (Job := Job) (check_l vals).
Proof.
  unfold check_l. apply appending_bind; [|intros rs; apply appending_modify_job].
  destruct (for_each_check_val (sub_clauses vals) ∅) as (o & evs & Hm & _).
  exists o, (fun job => job), evs. intros self.
  rewrite check_l_loop_sub_clauses. apply Hm.
Qed.

Lemma appending_strip_value value :
  appending (Job := Job) (strip_value value).
Proof.
  destruct value; simpl; first [apply appending_ret | apply appending_raise].
Qed.

Lemma appending_iterate value : appending (Job := Job) (iterate value).
Proof.
  destruct value; simpl; first [apply appending_ret | apply appending_raise].
Qed.

Lemma appending_check_M val : appending (Job := Job) (check_M val).
Proof.
  unfold check_M. apply appending_bind; [apply appending_modify_job|].
  intros _. apply appending_for_each. intros address [].
  destruct (negb (validate_email address));
    [apply appending_reg_event | apply appending_ret].
Qed.

(** Every option handler only appends events. *)
Lemma appending_handle_option option value :
  appending (Job := Job) (handle_option option value).
Proof.
  unfold handle_option, check_A, check_j, check_k, check_m, check_N, check_q.
  repeat match goal with
         | |- appending (if ?b then _ else _) => destruct b
         | |- appending (_ ≫= _) => apply appending_bind; [|intros ?]
         | |- appending (strip_value _) => apply appending_strip_value
         | |- appending (iterate _) => apply appending_iterate
         | |- appending (check_l _) => apply appending_check_l
         | |- appending (check_M _) => apply appending_check_M
         | |- appending (modify_job _) => apply appending_modify_job
         | |- appending (reg_event _ _) => apply appending_reg_event
         | |- appending (mret _) => apply appending_ret
         end.
Qed.

Lemma appending_handle_items options :
  appending (Job := Job) (for_each options handle_item tt).
Proof.
  apply appending_for_each. intros [option value] []. simpl.
  destruct (truthy value);
    [apply appending_handle_option | apply appending_ret].
Qed.

End Appending.

(** C9.  [parse_args] empties the events before it does anything else: what
    it returns and the parser it leaves are those of a parser that had no
    event registered, whatever events were registered before the call.  The
    options are handled on the emptied parser, and when the argument parser
    raises the events are empty already.  The handlers only append, so the
    events after the call are those the handlers of this call registered, in
    order, and nothing else. *)
Theorem parse_args_forgets_events :
  forall (U : VscUtils) (Job : Type) (E : Environment Job)
         (option_line : string),
    (forall (job : Job) (evs : list Event),
        parse_args option_line (mkParser job evs)
        = parse_args option_line (mkParser job [])
        /\ match parse_known_args (convert_arg_line_to_args option_line) with
           | Return options =>
               parse_args option_line (mkParser job evs)
               = for_each options handle_item tt (mkParser job [])
           | Raise e =>
               parse_args option_line (mkParser job evs)
               = (Raise e, mkParser job [])
           end)
    /\ exists o (f : Job -> Job) (produced : list Event),
         forall (job : Job) (evs : list Event),
           parse_args option_line (mkParser job evs)
           = (o, mkParser (f job) produced).
Proof.
  intros U Job E option_line. split.
  - intros job evs. split; [reflexivity|].
    unfold parse_args, mbind, M_bind, reset_events, lift. simpl.
    destruct (parse_known_args (convert_arg_line_to_args option_line));
      reflexivity.
  - unfold parse_args, mbind, M_bind, reset_events, lift. simpl.
    destruct (parse_known_args (convert_arg_line_to_args option_line))
      as [options|e].
    + destruct (appending_handle_items options) as (o & f & produced & Hm).
      exists o, f, produced. intros job evs. rewrite Hm. reflexivity.
    + exists (Raise e), (fun job => job), []. intros job evs. reflexivity.
Qed.

(** * Further properties of the parser *)

(** ** Events are only appended *)

Section Extends.

Context {Job : Type}.

Lemma extends_ret {A} P (a : A) : extends (Job := Job) P (mret a).
Proof.
  intros self. split; [reflexivity|]. exists []. simpl.
  rewrite app_nil_r. split; [reflexivity | constructor].
Qed.

Lemma extends_raise {A} P e : extends (Job := Job) P (raise (A := A) e).
Proof.
  intros self. split; [reflexivity|]. exists []. simpl.
  rewrite app_nil_r. split; [reflexivity | constructor].
Qed.

Lemma extends_reg_event (P : Event -> Prop) ev ex :
  P (mkEvent ev ex) -> extends (Job := Job) P (reg_event ev ex).
Proof.
  intros HP self. split; [reflexivity|]. exists [mkEvent ev ex]. simpl.
  split; [reflexivity | repeat constructor; exact HP].
Qed.

Lemma extends_bind {A B} P (m : M Job A) (k : A -> M Job B) :
  extends P m -> (forall a, extends P (k a)) -> extends P (m ≫= k).
Proof.
  intros Hm Hk self. unfold mbind, M_bind.
  destruct (Hm self) as (Hj & new & Hev & HP).
  destruct (m self) as [[a|e] self1]; simpl in *.
  - destruct (Hk a self1) as (Hj' & new' & Hev' & HP').
    split; [congruence|]. exists (new ++ new').
    rewrite Hev', Hev, app_assoc. split; [reflexivity|].
    apply Forall_app. auto.
  - split; [exact Hj|]. exists new. auto.
Qed.

Lemma extends_for_each {A S} P (xs : list A) (body : A -> S -> M Job S) :
  (forall x acc, extends P (body x acc)) ->
  forall acc, extends P (for_each xs body acc).
Proof.
  intros Hbody. induction xs as [|x xs IH]; intros acc; simpl.
  - apply extends_ret.
  - apply extends_bind; [apply Hbody | exact IH].
Qed.

Lemma extends_unpack2 P l : extends (Job := Job) P (unpack2 l).
Proof.
  destruct l as [|a [|b [|c l]]]; simpl;
    first [apply extends_ret | apply extends_raise].
Qed.

End Extends.

(** ** The events of the resource options *)

(** Closes a goal on a parser where nothing or one event was appended. *)
Ltac extends_leaf :=
  cbn; split; [reflexivity|];
  first [ exists []; rewrite app_nil_r; split; [reflexivity | constructor]
        | eexists [_]; split; [reflexivity|];
          repeat constructor; eexists; simpl; eauto 10 ].

Lemma number_spec_split spec_str key rest :
  is_number_spec spec_str = true ->
  Py.split "=" spec_str = key :: rest ->
  key = "ppn" \/ key = "gpus".
Proof.
  unfold is_number_spec. intros Hn Hs.
  apply orb_true_iff in Hn as [Hn|Hn]; apply startswith_app in Hn as [r ->];
    simpl in Hs; inversion Hs; auto.
Qed.

Lemma check_spec_str_extends {Job} spec_str node_spec :
  extends (Job := Job) resource_event (check_spec_str spec_str node_spec).
Proof.
  unfold check_spec_str. fold (is_number_spec spec_str).
  destruct (is_number_spec spec_str) eqn:Hn.
  - destruct (Py.split "=" spec_str) as [|key [|value [|c l]]] eqn:Hs;
      try apply extends_raise.
    destruct (number_spec_split _ _ _ Hn Hs) as [-> | ->];
      intros self; run_m; destruct (Py.isdigit value); extends_leaf.
  - destruct (node_spec !! "features") as [[n|s|l]|];
      first [apply extends_ret | apply extends_raise].
Qed.

Lemma parse_node_specs_extends {Job} node_spec_strs :
  extends (Job := Job) resource_event (parse_node_specs node_spec_strs).
Proof.
  unfold parse_node_specs. apply extends_for_each. intros g acc.
  apply extends_bind; [|intros; apply extends_ret].
  unfold parse_node_spec. destruct (Py.split ":" g) as [|spec0 rest].
  - apply extends_raise.
  - apply extends_for_each. intros t ns. apply check_spec_str_extends.
Qed.

Lemma check_val_extends `{VscUtils} {Job} val rs :
  extends (Job := Job) resource_event (check_val val rs).
Proof.
  unfold check_val.
  destruct (Py.startswith "walltime=" val || Py.startswith "cput=" val)
    eqn:Ht.
  { apply orb_true_iff in Ht as [Ht|Ht]; apply startswith_app in Ht as [r ->];
      simpl; change (EmptyString +:+ r) with r;
      destruct (Py.split "=" r) as [|value [|c l]];
      intros self; run_m; try destruct (walltime2seconds value);
      extends_leaf. }
  destruct (Py.startswith "mem=" val || Py.startswith "pmem=" val) eqn:Hs.
  { apply orb_true_iff in Hs as [Hs|Hs]; apply startswith_app in Hs as [r ->];
      simpl; change (EmptyString +:+ r) with r;
      destruct (Py.split "=" r) as [|value [|c l]];
      intros self; run_m;
      try destruct (match_size value) as [[amount order]|];
      extends_leaf. }
  destruct (Py.startswith "nodes=" val).
  { apply extends_bind; [apply extends_unpack2|]. intros [attr_name attr_value].
    apply extends_bind; [apply parse_node_specs_extends|].
    intros; apply extends_ret. }
  apply extends_bind; [|intros; apply extends_ret].
  apply extends_reg_event. exists val. auto 10.
Qed.

Lemma check_l_loop_extends `{VscUtils} {Job} vals :
  extends (Job := Job) resource_event (check_l_loop vals).
Proof.
  unfold check_l_loop. apply extends_for_each. intros val_str rs.
  apply extends_for_each. intros val rs'. apply check_val_extends.
Qed.

(** X1.  [check_l] raises nothing but [ValueError], and it does so exactly
    when one of its values holds a ['='] too many; the job is then left as
    it was.  When it returns, the job has received the dictionary the loops
    built, once. *)
Theorem check_l_outcome (U : VscUtils) (Job : Type) (E : Environment Job)
  (vals : list string) (self : PbsOptionParser Job) :
  match check_l vals self with
  | (Return _, self') =>
      forallb well_split (sub_clauses vals) = true
      /\ exists rs,
           check_l_loop vals self
           = (Return rs, mkParser (_job self) (_events self'))
           /\ _job self' = add_resource_specs rs (_job self)
  | (Raise e, self') =>
      e = ValueError
      /\ forallb well_split (sub_clauses vals) = false
      /\ _job self' = _job self
  end.
Proof.
  unfold check_l, mbind, M_bind.
  pose proof (check_l_loop_returns_iff vals self) as Hiff.
  pose proof (check_l_loop_extends vals self) as [Hjob _].
  destruct (check_l_loop vals self) as [[rs|e] self1]; simpl in *.
  - split; [exact Hiff|]. exists rs. split; [|congruence].
    destruct self1 as [job1 evs1]. simpl in *. congruence.
  - destruct Hiff as [-> Hf]. auto.
Qed.

(** X2.  Whether it returns or raises, [check_l] keeps the events that were
    registered before and appends only events of the seven kinds of the
    resource options, each with its one detail. *)
Theorem check_l_event_kinds (U : VscUtils) (Job : Type) (E : Environment Job)
  (vals : list string) (self : PbsOptionParser Job) :
  exists new,
    _events (snd (check_l vals self)) = _events self ++ new
    /\ Forall resource_event new.
Proof.
  unfold check_l, mbind, M_bind.
  destruct (check_l_loop_extends vals self) as (_ & new & Hev & HP).
  exists new. destruct (check_l_loop vals self) as [[rs|e] self1];
    simpl in *; auto.
Qed.

(** ** The fields of a node specification *)

Lemma check_spec_str_fields {Job} spec_str node_spec l
  (self self' : PbsOptionParser Job) node_spec' :
  node_spec !! "features" = Some (NList l) ->
  check_spec_str spec_str node_spec self = (Return node_spec', self') ->
  node_spec' !! "features"
  = Some (NList (l ++ features_of [spec_str]))
  /\ (forall key, key = "ppn" \/ key = "gpus" ->
      node_spec' !! key
      = if is_number_spec spec_str && String.eqb (key_of spec_str) key
           && Py.isdigit (value_of spec_str)
        then Some (NInt (Py.int (value_of spec_str)))
        else node_spec !! key)
  /\ dom node_spec' ⊆ dom node_spec ∪ {[ "ppn"; "gpus" ]}.
Proof.
  intros Hl Hrun.
  destruct (spec_ok spec_str) eqn:Hok.
  2:{ rewrite (check_spec_str_raises spec_str node_spec Hok Job self) in Hrun.
      discriminate. }
  revert Hrun. unfold check_spec_str, features_of. simpl.
  fold (is_number_spec spec_str).
  unfold spec_ok in Hok.
  destruct (is_number_spec spec_str) eqn:Hn; simpl in *.
  - rewrite (split_one_eq _ Hok). run_m.
    destruct (is_number_spec_key _ Hn) as [Hk|Hk]; rewrite Hk;
      destruct (Py.isdigit (value_of spec_str)); cbn;
      intros Hrun; inversion Hrun; subst; rewrite app_nil_r;
      (split; [try rewrite lookup_insert_ne by discriminate; exact Hl|]);
      (split; [|try rewrite dom_insert; set_solver]);
      intros key [-> | ->]; simpl;
      rewrite ?lookup_insert_eq, ?lookup_insert_ne by discriminate;
      reflexivity.
  - rewrite Hl. run_m. intros Hrun. inversion Hrun; subst.
    split; [apply lookup_insert_eq|]. split.
    + intros key [-> | ->]; apply lookup_insert_ne; discriminate.
    + rewrite dom_insert. apply elem_of_dom_2 in Hl. set_solver.
Qed.

Lemma check_spec_strs_fields {Job} spec_strs : forall node_spec l
  (self self' : PbsOptionParser Job) node_spec',
  node_spec !! "features" = Some (NList l) ->
  for_each spec_strs check_spec_str node_spec self = (Return node_spec', self') ->
  node_spec' !! "features" = Some (NList (l ++ features_of spec_strs))
  /\ (forall key, key = "ppn" \/ key = "gpus" ->
      node_spec' !! key
      = fold_left
          (fun acc t =>
             if is_number_spec t && String.eqb (key_of t) key
                && Py.isdigit (value_of t)
             then Some (NInt (Py.int (value_of t)))
             else acc)
          spec_strs (node_spec !! key))
  /\ dom node_spec' ⊆ dom node_spec ∪ {[ "ppn"; "gpus" ]}.
Proof.
  induction spec_strs as [|t ts IH]; intros ns l self self' ns' Hl Hrun.
  - simpl in Hrun. inversion Hrun; subst. unfold features_of. simpl.
    rewrite app_nil_r. split; [exact Hl|]. split; [reflexivity | set_solver].
  - simpl in Hrun. unfold mbind, M_bind in Hrun.
    destruct (check_spec_str t ns self) as [[ns1|e] self1] eqn:Hstep;
      [|discriminate].
    destruct (check_spec_str_fields _ _ _ _ _ _ Hl Hstep) as (Hf & Hk & Hd).
    destruct (IH _ _ _ _ _ Hf Hrun) as (Hf' & Hk' & Hd').
    split; [|split].
    + rewrite Hf'. unfold features_of. simpl.
      destruct (negb (is_number_spec t)); simpl;
        rewrite <- ?app_assoc, ?app_nil_r; reflexivity.
    + intros key Hkey. rewrite (Hk' key Hkey). simpl.
      rewrite (Hk key Hkey). reflexivity.
    + set_solver.
Qed.

(** X3.  The dictionary of a node specification that is parsed holds as
    features the specifications after the leading one that are neither
    [ppn=...] nor [gpus=...], in their order; under [ppn] and [gpus] the
    number of the last such specification whose value is all digits, or
    nothing (a value that is not a number erases no earlier one); and no key
    other than [features], [nodes], [host], [ppn] and [gpus]. *)
Theorem node_spec_fields (Job : Type) (node_spec_str : string)
  (self self' : PbsOptionParser Job) (node_spec : gmap string nval) :
  parse_node_spec node_spec_str self = (Return node_spec, self') ->
  node_spec !! "features"
  = Some (NList (features_of (trailing node_spec_str)))
  /\ node_spec !! "ppn" = number_value "ppn" (trailing node_spec_str)
  /\ node_spec !! "gpus" = number_value "gpus" (trailing node_spec_str)
  /\ dom node_spec ⊆ {[ "features"; "nodes"; "host"; "ppn"; "gpus" ]}.
Proof.
  unfold parse_node_spec, trailing, number_value.
  pose proof (split_not_nil ":" node_spec_str) as Hne.
  destruct (Py.split ":" node_spec_str) as [|spec0 rest]; [congruence|].
  simpl. intros Hrun.
  assert (leading_spec spec0 !! "features" = Some (NList [])) as Hl.
  { unfold leading_spec. destruct (Py.isdigit spec0); reflexivity. }
  destruct (check_spec_strs_fields _ _ _ _ _ _ Hl Hrun) as (Hf & Hk & Hd).
  split; [exact Hf|].
  assert (leading_spec spec0 !! "ppn" = None
          /\ leading_spec spec0 !! "gpus" = None) as [Hp Hg].
  { unfold leading_spec. destruct (Py.isdigit spec0); split; reflexivity. }
  split; [rewrite (Hk "ppn"), Hp by auto; reflexivity|].
  split; [rewrite (Hk "gpus"), Hg by auto; reflexivity|].
  assert (dom (leading_spec spec0) ⊆ {[ "features"; "nodes"; "host" ]}) as Hd0.
  { unfold leading_spec. destruct (Py.isdigit spec0);
      rewrite ?dom_insert, dom_singleton; set_solver. }
  set_solver.
Qed.

Lemma node_spec_fields_witness :
  (<["gpus" := NInt 2]>
     (<["features" := NList ["bigmem"; "ib"]]>
        (<["ppn" := NInt 4]>
           (<["nodes" := NInt 3]> {[ "features" := NList [] ]})))
   : gmap string nval) !! "features"
  = Some (NList (features_of (trailing "3:bigmem:ppn=4:ppn=x:ib:gpus=2")))
  /\ (<["gpus" := NInt 2]>
        (<["features" := NList ["bigmem"; "ib"]]>
           (<["ppn" := NInt 4]>
              (<["nodes" := NInt 3]> {[ "features" := NList [] ]})))
      : gmap string nval) !! "ppn"
     = number_value "ppn" (trailing "3:bigmem:ppn=4:ppn=x:ib:gpus=2")
  /\ (<["gpus" := NInt 2]>
        (<["features" := NList ["bigmem"; "ib"]]>
           (<["ppn" := NInt 4]>
              (<["nodes" := NInt 3]> {[ "features" := NList [] ]})))
      : gmap string nval) !! "gpus"
     = number_value "gpus" (trailing "3:bigmem:ppn=4:ppn=x:ib:gpus=2")
  /\ dom (<["gpus" := NInt 2]>
            (<["features" := NList ["bigmem"; "ib"]]>
               (<["ppn" := NInt 4]>
                  (<["nodes" := NInt 3]> {[ "features" := NList [] ]})))
          : gmap string nval)
     ⊆ {[ "features"; "nodes"; "host"; "ppn"; "gpus" ]}.
Proof.
  apply (node_spec_fields unit "3:bigmem:ppn=4:ppn=x:ib:gpus=2" fresh
           (add_events [mkEvent "ppn_no_number" {[ "number" := "x" ]}] fresh)).
  vm_compute. reflexivity.
Defined.

(** ** Longest prefixes *)

Lemma span_digits_by s : Py.span_digits s = span_by Py.is_digit s.
Proof.
  induction s as [|c r IH]; simpl; [reflexivity|]. rewrite IH. reflexivity.
Qed.

Lemma span_word_by s : Py.span_word s = span_by Py.is_word s.
Proof.
  induction s as [|c r IH]; simpl; [reflexivity|]. rewrite IH. reflexivity.
Qed.

Lemma span_chars_by cs s : span_chars cs s = span_by (one_of cs) s.
Proof.
  induction s as [|c r IH]; simpl; [reflexivity|]. rewrite IH. reflexivity.
Qed.

Lemma span_by_sound f s : forall p rest,
  span_by f s = (p, rest) ->
  s = p +:+ rest /\ string_forall f p = true /\ stops f rest = true.
Proof.
  induction s as [|c r IH]; simpl; intros p rest Hs.
  - inversion Hs. auto.
  - destruct (f c) eqn:Hc.
    + destruct (span_by f r) as [p0 rest0].
      specialize (IH p0 rest0 eq_refl). destruct IH as (Hr & Hp0 & Hst).
      inversion Hs. subst p rest.
      split; [rewrite Hr; reflexivity|]. simpl. rewrite Hc. auto.
    + inversion Hs. simpl. rewrite Hc. auto.
Qed.

Lemma span_by_complete f p : forall rest,
  string_forall f p = true -> stops f rest = true ->
  span_by f (p +:+ rest) = (p, rest).
Proof.
  induction p as [|c p IH]; intros rest Hp Hst.
  - change (span_by f rest = (EmptyString, rest)).
    destruct rest as [|d rest]; [reflexivity|]. simpl in *.
    apply negb_true_iff in Hst. rewrite Hst. reflexivity.
  - change (span_by f (String c (p +:+ rest)) = (String c p, rest)).
    simpl in *. apply andb_true_iff in Hp as [Hc Hp].
    rewrite Hc, (IH rest Hp Hst). reflexivity.
Qed.

Lemma all_digits_forall s : Py.all_digits s = string_forall Py.is_digit s.
Proof.
  induction s as [|c r IH]; simpl; [reflexivity|]. rewrite IH. reflexivity.
Qed.

(** ** Times and sizes *)

Lemma name_value_split name value :
  has_char "=" name = false -> has_char "=" value = false ->
  Py.split "=" (name +:+ String "=" value) = [name; value].
Proof.
  intros Hn Hv. rewrite (split_app "=" name value Hn).
  rewrite (split_no_sep "=" value Hv). reflexivity.
Qed.

(** X4.  A [walltime=] or [cput=] whose value holds no ['='] sets the
    attribute of that name to the seconds the converter returns, and
    registers nothing; when the converter rejects the value it sets nothing
    and registers one [invalid_walltime_format] or [invalid_cput_format]
    event whose [time] is the value. *)
Theorem time_value (U : VscUtils) (name value : string)
  (rs : gmap string rval) (Job : Type) (self : PbsOptionParser Job) :
  name = "walltime" \/ name = "cput" ->
  has_char "=" value = false ->
  check_val (name +:+ String "=" value) rs self
  = match walltime2seconds value with
    | Some seconds => (Return (<[name := RInt seconds]> rs), self)
    | None =>
        (Return rs,
         add_events [mkEvent ("invalid_" +:+ name +:+ "_format")
                             {[ "time" := value ]}] self)
    end.
Proof.
  intros Hname Hv. unfold check_val.
  assert (Py.startswith "walltime=" (name +:+ String "=" value)
          || Py.startswith "cput=" (name +:+ String "=" value) = true) as ->.
  { destruct Hname as [-> | ->].
    - rewrite (startswith_app_true "walltime=" value
               : Py.startswith "walltime=" ("walltime" +:+ String "=" value) = true). reflexivity.
    - rewrite (startswith_app_true "cput=" value
               : Py.startswith "cput=" ("cput" +:+ String "=" value) = true). apply orb_true_r. }
  rewrite name_value_split;
    [|destruct Hname as [-> | ->]; reflexivity | exact Hv].
  run_m. destruct (walltime2seconds value); reflexivity.
Qed.

Lemma time_value_witness :
  check_val (H := spec_utils) ("cput" +:+ String "=" "1:30") ∅ fresh
  = match walltime2seconds (VscUtils := spec_utils) "1:30" with
    | Some seconds => (Return (<["cput" := RInt seconds]> ∅), fresh)
    | None =>
        (Return ∅,
         add_events [mkEvent ("invalid_" +:+ "cput" +:+ "_format")
                             {[ "time" := "1:30" ]}] fresh)
    end.
Proof.
  apply (time_value spec_utils "cput" "1:30" ∅ unit fresh).
  - right. reflexivity.
  - reflexivity.
Defined.

(** X5.  A [mem=] or [pmem=] whose value holds no ['='] sets the attribute
    of that name to the bytes of the amount and unit the pattern finds, and
    registers nothing; when the pattern does not match it sets nothing and
    registers one [invalid_mem_format] or [invalid_pmem_format] event whose
    [size] is the value. *)
Theorem size_value (U : VscUtils) (name value : string)
  (rs : gmap string rval) (Job : Type) (self : PbsOptionParser Job) :
  name = "mem" \/ name = "pmem" ->
  has_char "=" value = false ->
  check_val (name +:+ String "=" value) rs self
  = match match_size value with
    | Some (amount, order) =>
        (Return (<[name := RInt (size2bytes (Py.int amount) order)]> rs),
         self)
    | None =>
        (Return rs,
         add_events [mkEvent ("invalid_" +:+ name +:+ "_format")
                             {[ "size" := value ]}] self)
    end.
Proof.
  intros Hname Hv. unfold check_val.
  assert (Py.startswith "walltime=" (name +:+ String "=" value)
          || Py.startswith "cput=" (name +:+ String "=" value) = false) as ->.
  { destruct Hname as [-> | ->]; reflexivity. }
  assert (Py.startswith "mem=" (name +:+ String "=" value)
          || Py.startswith "pmem=" (name +:+ String "=" value) = true) as ->.
  { destruct Hname as [-> | ->].
    - rewrite (startswith_app_true "mem=" value
               : Py.startswith "mem=" ("mem" +:+ String "=" value) = true). reflexivity.
    - rewrite (startswith_app_true "pmem=" value
               : Py.startswith "pmem=" ("pmem" +:+ String "=" value) = true). apply orb_true_r. }
  rewrite name_value_split;
    [|destruct Hname as [-> | ->]; reflexivity | exact Hv].
  run_m. destruct (match_size value) as [[amount order]|]; reflexivity.
Qed.

Lemma size_value_witness :
  check_val (H := spec_utils) ("pmem" +:+ String "=" "512mw") ∅ fresh
  = match match_size "512mw" with
    | Some (amount, order) =>
        (Return (<["pmem" := RInt (size2bytes (VscUtils := spec_utils)
                                     (Py.int amount) order)]> ∅),
         fresh)
    | None =>
        (Return ∅,
         add_events [mkEvent ("invalid_" +:+ "pmem" +:+ "_format")
                             {[ "size" := "512mw" ]}] fresh)
    end.
Proof.
  apply (size_value spec_utils "pmem" "512mw" ∅ unit fresh).
  - right. reflexivity.
  - reflexivity.
Defined.

Lemma unit_not_digit order :
  one_of ["k"; "m"; "g"; "t"]%char order = true -> Py.is_digit order = false.
Proof.
  unfold one_of. simpl. intros Ho.
  repeat (apply orb_true_iff in Ho as [Ho|Ho];
          [apply Ascii.eqb_eq in Ho; subst order; reflexivity|]).
  discriminate.
Qed.

(** X6.  The pattern of a size finds an amount and a unit exactly in the
    texts that begin with one digit at least, then one of [k], [m], [g] and
    [t], then [b] or [w]; the amount is all the leading digits and anything
    may follow the [b] or [w]. *)
Theorem match_size_spec (s amount unit_ : string) :
  match_size s = Some (amount, unit_) <->
  exists order b rest,
    unit_ = String order EmptyString
    /\ s = amount +:+ String order (String b rest)
    /\ Py.isdigit amount = true
    /\ one_of ["k"; "m"; "g"; "t"]%char order = true
    /\ one_of ["b"; "w"]%char b = true.
Proof.
  unfold match_size. rewrite span_digits_by. split.
  - destruct (span_by Py.is_digit s) as [p rest] eqn:Hspan.
    apply span_by_sound in Hspan as (Hs & Hp & _).
    destruct p as [|d ds]; [discriminate|].
    destruct rest as [|order [|b rest]]; try discriminate.
    fold (one_of ["k"; "m"; "g"; "t"]%char order).
    fold (one_of ["b"; "w"]%char b).
    destruct (one_of ["k"; "m"; "g"; "t"]%char order) eqn:Ho; [|discriminate].
    destruct (one_of ["b"; "w"]%char b) eqn:Hb; [|discriminate].
    simpl. intros Heq. inversion Heq; subst amount unit_.
    exists order, b, rest. repeat split; auto.
    unfold Py.isdigit. rewrite all_digits_forall. exact Hp.
  - intros (order & b & rest & -> & -> & Hd & Ho & Hb).
    rewrite span_by_complete.
    + destruct amount as [|d ds]; [discriminate|].
      fold (one_of ["k"; "m"; "g"; "t"]%char order).
      fold (one_of ["b"; "w"]%char b).
      rewrite Ho, Hb. reflexivity.
    + rewrite <- all_digits_forall. apply isdigit_all_digits, Hd.
    + simpl. rewrite (unit_not_digit _ Ho). reflexivity.
Qed.

(** ** Stripping and splitting *)

Lemma rstrip_idemp s : Py.rstrip (Py.rstrip s) = Py.rstrip s.
Proof.
  induction s as [|c r IH]; simpl; [reflexivity|].
  destruct (Py.rstrip r) as [|d r'] eqn:Hr.
  - destruct (Py.is_space c) eqn:Hc; simpl; [reflexivity|].
    rewrite Hc. reflexivity.
  - simpl in *. rewrite IH. reflexivity.
Qed.

Lemma lstrip_rstrip s : Py.lstrip (Py.rstrip s) = Py.rstrip (Py.lstrip s).
Proof.
  induction s as [|c r IH]; simpl; [reflexivity|].
  destruct (Py.is_space c) eqn:Hc.
  - destruct (Py.rstrip r) as [|d r'] eqn:Hr.
    + rewrite <- IH. reflexivity.
    + simpl. rewrite Hc. simpl in IH. exact IH.
  - destruct (Py.rstrip r) as [|d r'] eqn:Hr; simpl; rewrite Hc, ?Hr;
      reflexivity.
Qed.

Lemma strip_lstrip s : Py.strip (Py.lstrip s) = Py.strip s.
Proof.
  unfold Py.strip. f_equal.
  induction s as [|c r IH]; simpl; [reflexivity|].
  destruct (Py.is_space c) eqn:Hc; [exact IH|].
  simpl. rewrite Hc. reflexivity.
Qed.

Lemma strip_rstrip s : Py.strip (Py.rstrip s) = Py.strip s.
Proof.
  unfold Py.strip. rewrite lstrip_rstrip. apply rstrip_idemp.
Qed.

Lemma strip_idemp s : Py.strip (Py.strip s) = Py.strip s.
Proof.
  unfold Py.strip at 2. rewrite strip_rstrip. apply strip_lstrip.
Qed.

Lemma space_not_sep sep c :
  Py.is_space sep = false -> Py.is_space c = true -> Ascii.eqb c sep = false.
Proof.
  intros Hs Hc. destruct (Ascii.eqb c sep) eqn:He; [|reflexivity].
  apply Ascii.eqb_eq in He. congruence.
Qed.

Lemma split_singleton sep s h : Py.split sep s = [h] -> h = s.
Proof.
  revert h. induction s as [|c r IH]; simpl; intros h Hs.
  - inversion Hs. reflexivity.
  - destruct (Ascii.eqb c sep).
    + pose proof (split_not_nil sep r). destruct (Py.split sep r);
        [congruence | discriminate].
    + pose proof (split_not_nil sep r) as Hne.
      destruct (Py.split sep r) as [|h' [|h'' t]]; [congruence| |];
        simpl in Hs; inversion Hs.
      rewrite (IH h' eq_refl). reflexivity.
Qed.

Lemma split_lstrip sep s :
  Py.is_space sep = false ->
  map Py.strip (Py.split sep (Py.lstrip s)) = map Py.strip (Py.split sep s).
Proof.
  intros Hsep. induction s as [|c r IH]; simpl; [reflexivity|].
  destruct (Py.is_space c) eqn:Hc; [|reflexivity].
  rewrite (space_not_sep _ _ Hsep Hc), IH.
  pose proof (split_not_nil sep r) as Hne.
  destruct (Py.split sep r) as [|h t]; [congruence|]. simpl.
  f_equal. unfold Py.strip. simpl. rewrite Hc. reflexivity.
Qed.

Lemma map_last_cons {A} (f : A -> A) x l :
  l <> [] -> map_last f (x :: l) = x :: map_last f l.
Proof. destruct l; [congruence | reflexivity]. Qed.

Lemma split_rstrip sep s :
  Py.is_space sep = false ->
  Py.split sep (Py.rstrip s) = map_last Py.rstrip (Py.split sep s).
Proof.
  intros Hsep. induction s as [|c r IH]; [reflexivity|].
  pose proof (split_not_nil sep r) as Hne.
  change (Py.rstrip (String c r))
    with (match Py.rstrip r with
          | EmptyString =>
              if Py.is_space c then EmptyString else String c EmptyString
          | r' => String c r'
          end).
  change (Py.split sep (String c r))
    with (if Ascii.eqb c sep then EmptyString :: Py.split sep r
          else Py.cons_head c (Py.split sep r)).
  destruct (Ascii.eqb c sep) eqn:Hcs.
  - apply Ascii.eqb_eq in Hcs. subst c.
    rewrite map_last_cons by exact Hne. rewrite <- IH.
    destruct (Py.rstrip r) as [|d r'].
    + rewrite Hsep. simpl. rewrite Ascii.eqb_refl. reflexivity.
    + simpl. rewrite Ascii.eqb_refl. reflexivity.
  - destruct (Py.split sep r) as [|h [|h2 t]] eqn:Hsplit; [congruence| |].
    + apply split_singleton in Hsplit. subst h. simpl in IH. simpl.
      destruct (Py.rstrip r) as [|d r'].
      * destruct (Py.is_space c); simpl; [reflexivity|].
        rewrite Hcs. reflexivity.
      * change (Py.split sep (String c (String d r')))
          with (if Ascii.eqb c sep
                then EmptyString :: Py.split sep (String d r')
                else Py.cons_head c (Py.split sep (String d r'))).
        rewrite Hcs, IH. reflexivity.
    + change (map_last Py.rstrip (Py.cons_head c (h :: h2 :: t)))
        with (String c h :: map_last Py.rstrip (h2 :: t)).
      change (map_last Py.rstrip (h :: h2 :: t))
        with (h :: map_last Py.rstrip (h2 :: t)) in IH.
      destruct (Py.rstrip r) as [|d r'].
      * simpl in IH. inversion IH as [[Hh Ht]].
        destruct t; discriminate.
      * change (Py.split sep (String c (String d r')))
          with (if Ascii.eqb c sep
                then EmptyString :: Py.split sep (String d r')
                else Py.cons_head c (Py.split sep (String d r'))).
        rewrite Hcs, IH. reflexivity.
Qed.

Lemma map_strip_map_last l :
  map Py.strip (map_last Py.rstrip l) = map Py.strip l.
Proof.
  induction l as [|x [|y t] IH]; [reflexivity| |].
  - simpl. rewrite strip_rstrip. reflexivity.
  - change (map_last Py.rstrip (x :: y :: t))
      with (x :: map_last Py.rstrip (y :: t)).
    simpl in *. rewrite IH. reflexivity.
Qed.

(** Stripping a text before it is split changes no stripped piece. *)
Lemma split_strip sep s :
  Py.is_space sep = false ->
  map Py.strip (Py.split sep (Py.strip s)) = map Py.strip (Py.split sep s).
Proof.
  intros Hsep. unfold Py.strip at 2.
  rewrite (split_rstrip _ _ Hsep), map_strip_map_last.
  apply split_lstrip. exact Hsep.
Qed.

Lemma cons_head_app c (l1 l2 : list string) :
  l1 <> [] -> Py.cons_head c (l1 ++ l2) = Py.cons_head c l1 ++ l2.
Proof. destruct l1; [congruence | reflexivity]. Qed.

Lemma split_join sep x y :
  Py.split sep (x +:+ String sep y) = Py.split sep x ++ Py.split sep y.
Proof.
  induction x as [|c x IH].
  - change (Py.split sep (String sep y) = [EmptyString] ++ Py.split sep y).
    simpl. rewrite Ascii.eqb_refl. reflexivity.
  - change (Py.split sep (String c (x +:+ String sep y))
            = Py.split sep (String c x) ++ Py.split sep y).
    simpl. destruct (Ascii.eqb c sep).
    + rewrite IH. reflexivity.
    + rewrite IH. apply cons_head_app, split_not_nil.
Qed.

(** A comma at the end of a text leaves an empty last piece, and two commas
    in a row an empty piece between them. *)
Lemma split_trailing_comma s :
  Py.split "," (s +:+ ",") = Py.split "," s ++ [EmptyString].
Proof. apply (split_join "," s EmptyString). Qed.

Lemma split_doubled_comma a b :
  Py.split "," (a +:+ String "," (String "," b))
  = Py.split "," a ++ EmptyString :: Py.split "," b.
Proof.
  rewrite (split_join "," a (String "," b)). simpl. reflexivity.
Qed.

(** A [-l] option with a comma at its end is handled as the option without
    the comma, followed by one empty value. *)
Lemma check_l_loop_trailing_comma `{VscUtils} {Job} s
  (self : PbsOptionParser Job) :
  check_l_loop [s +:+ ","] self
  = match check_l_loop [s] self with
    | (Return rs, self1) =>
        (Return rs, add_events [unknown_resource_spec EmptyString] self1)
    | (Raise e, self1) => (Raise e, self1)
    end.
Proof.
  rewrite !check_l_loop_sub_clauses.
  assert (sub_clauses [s +:+ ","] = sub_clauses [s] ++ [EmptyString]) as ->.
  { unfold sub_clauses. simpl. rewrite !app_nil_r.
    rewrite !(split_strip ","%char) by reflexivity.
    rewrite split_trailing_comma, map_app. reflexivity. }
  rewrite for_each_app. unfold mbind, M_bind.
  destruct (for_each (sub_clauses [s]) check_val ∅ self) as [[rs|e] self1];
    reflexivity.
Qed.

Lemma sub_clauses_join a b vals :
  sub_clauses ((a +:+ String "," b) :: vals) = sub_clauses (a :: b :: vals).
Proof.
  unfold sub_clauses. simpl. rewrite app_assoc. f_equal.
  rewrite !(split_strip ","%char) by reflexivity.
  rewrite split_join, map_app. reflexivity.
Qed.

(** X7.  Two [-l] options do what one [-l] option does that holds their
    values joined by a comma: [check_l] ends the same way and leaves the
    same parser. *)
Theorem check_l_join (U : VscUtils) (Job : Type) (E : Environment Job)
  (a b : string) (vals : list string) (self : PbsOptionParser Job) :
  check_l (a :: b :: vals) self = check_l ((a +:+ String "," b) :: vals) self.
Proof.
  unfold check_l, mbind, M_bind.
  rewrite !check_l_loop_sub_clauses, sub_clauses_join. reflexivity.
Qed.

(** X8.  White space around a [-l] option and around each of its values is
    of no effect: every value that is handled is stripped, so none begins or
    ends with white space, and stripping the options beforehand changes
    nothing. *)
Theorem check_l_strip (U : VscUtils) (Job : Type) (E : Environment Job)
  (vals : list string) (self : PbsOptionParser Job) :
  check_l (map Py.strip vals) self = check_l vals self
  /\ Forall (fun val => Py.strip val = val) (sub_clauses vals).
Proof.
  split.
  - unfold check_l, mbind, M_bind. rewrite !check_l_loop_sub_clauses.
    replace (sub_clauses (map Py.strip vals)) with (sub_clauses vals);
      [reflexivity|].
    unfold sub_clauses. rewrite map_map. f_equal.
    apply map_ext. intros s. rewrite strip_idemp. reflexivity.
  - unfold sub_clauses. apply Forall_concat, Forall_map.
    apply Forall_forall. intros s _. apply Forall_map.
    apply Forall_forall. intros x _. apply strip_idemp.
Qed.

(** ** The patterns of the other options *)

Lemma rstrip_end s : ends_with_space (Py.rstrip s) = false.
Proof.
  induction s as [|c r IH]; simpl; [reflexivity|].
  destruct (Py.rstrip r) as [|d r'] eqn:Hr.
  - destruct (Py.is_space c) eqn:Hc; simpl; [reflexivity | exact Hc].
  - exact IH.
Qed.

Lemma strip_end s : ends_with_space (Py.strip s) = false.
Proof. apply rstrip_end. Qed.

Lemma ends_with_space_app p c :
  ends_with_space (p +:+ String c EmptyString) = Py.is_space c.
Proof.
  induction p as [|d p IH]; [reflexivity|].
  change (ends_with_space (String d (p +:+ String c EmptyString))
          = Py.is_space c).
  simpl. destruct (p +:+ String c EmptyString) eqn:Hp; [|exact IH].
  destruct p; discriminate.
Qed.

Lemma string_forall_app f p q :
  string_forall f (p +:+ q) = string_forall f p && string_forall f q.
Proof.
  induction p as [|c p IH]; [reflexivity|].
  change (f c && string_forall f (p +:+ q)
          = f c && string_forall f p && string_forall f q).
  rewrite IH, andb_assoc. reflexivity.
Qed.

Lemma append_nil_r s : s +:+ EmptyString = s.
Proof.
  induction s as [|c s IH]; [reflexivity|].
  change (String c (s +:+ EmptyString) = String c s). rewrite IH. reflexivity.
Qed.

Lemma length_append p q :
  String.length (p +:+ q) = (String.length p + String.length q)%nat.
Proof.
  induction p as [|c p IH]; [reflexivity|].
  change (S (String.length (p +:+ q))
          = S (String.length p + String.length q)).
  rewrite IH. reflexivity.
Qed.

(** On a text that does not end with white space, [$] after the longest
    prefix holds exactly when the prefix is the whole text. *)
Lemma span_at_end f val p rest :
  ends_with_space val = false ->
  span_by f val = (p, rest) ->
  Py.at_end rest = string_forall f val
  /\ (string_forall f val = true -> p = val).
Proof.
  intros Hend Hspan. apply span_by_sound in Hspan as (Hval & Hp & Hst).
  subst val. rewrite string_forall_app, Hp. simpl.
  destruct rest as [|c [|d rest]].
  - split; [reflexivity|]. intros _. symmetry. apply append_nil_r.
  - rewrite ends_with_space_app in Hend. simpl in *.
    apply negb_true_iff in Hst. rewrite Hst. simpl.
    assert (Nat.eqb (nat_of_ascii c) 10 = false) as Hnl.
    { destruct (Nat.eqb (nat_of_ascii c) 10) eqn:Hc; [|reflexivity].
      apply Nat.eqb_eq in Hc. unfold Py.is_space in Hend. rewrite Hc in Hend.
      discriminate. }
    rewrite Hnl. split; [reflexivity | discriminate].
  - simpl in *. apply negb_true_iff in Hst. rewrite Hst. simpl.
    split; [reflexivity | discriminate].
Qed.

Lemma ends_with_space_tail c r :
  ends_with_space (String c r) = false -> ends_with_space r = false.
Proof. destruct r; [reflexivity | intros Hr; exact Hr]. Qed.

Lemma match_identifier_stripped val :
  ends_with_space val = false -> match_identifier val = identifier val.
Proof.
  destruct val as [|c r]; [reflexivity|]. intros Hend.
  apply ends_with_space_tail in Hend. unfold match_identifier, identifier.
  rewrite span_word_by. destruct (span_by Py.is_word r) as [p rest] eqn:Hs.
  cbn [snd]. destruct (span_at_end _ _ _ _ Hend Hs) as [-> _]. reflexivity.
Qed.

Lemma match_job_name_stripped val :
  ends_with_space val = false -> match_job_name val = job_name val.
Proof.
  destruct val as [|c r]; [reflexivity|]. intros Hend.
  apply ends_with_space_tail in Hend.
  unfold match_job_name, job_name, identifier.
  rewrite span_word_by. destruct (span_by Py.is_word r) as [p rest] eqn:Hs.
  destruct (span_at_end _ _ _ _ Hend Hs) as [-> Hp].
  destruct (Py.is_alpha c); [|reflexivity]. simpl.
  destruct (string_forall Py.is_word r) eqn:Hr.
  - rewrite (Hp eq_refl). rewrite andb_true_r. reflexivity.
  - apply andb_false_r.
Qed.

Lemma match_keep_stripped val :
  ends_with_space val = false ->
  match_keep val || String.eqb val "n" = keep_value val.
Proof.
  intros Hend. unfold match_keep, keep_value. rewrite span_chars_by.
  destruct (span_by (one_of ["e"; "o"]%char) val) as [p rest] eqn:Hs.
  destruct (span_at_end _ _ _ _ Hend Hs) as [-> Hp].
  destruct (string_forall (one_of ["e"; "o"]%char) val) eqn:Hv.
  - rewrite (Hp eq_refl). reflexivity.
  - rewrite !andb_false_r. reflexivity.
Qed.

Lemma match_mail_events_stripped val :
  ends_with_space val = false ->
  match_mail_events val = mail_events_value val.
Proof.
  intros Hend. unfold match_mail_events, mail_events_value.
  rewrite span_chars_by.
  destruct (span_by (one_of ["b"; "e"; "a"]%char) val) as [p rest] eqn:Hs.
  destruct (span_at_end _ _ _ _ Hend Hs) as [-> Hp].
  f_equal.
  - destruct (string_forall (one_of ["b"; "e"; "a"]%char) val) eqn:Hv.
    + rewrite (Hp eq_refl). reflexivity.
    + rewrite !andb_false_r. reflexivity.
  - destruct val as [|c r]; [reflexivity|].
    destruct (Ascii.eqb c "n") eqn:Hc.
    + apply Ascii.eqb_eq in Hc. subst c. simpl.
      destruct r as [|d [|d' r]]; [reflexivity| |reflexivity].
      simpl in Hend. simpl.
      destruct (Nat.eqb (nat_of_ascii d) 10) eqn:Hd; [|reflexivity].
      apply Nat.eqb_eq in Hd. unfold Py.is_space in Hend.
      rewrite Hd in Hend. discriminate.
    + transitivity false.
      * destruct c as [[] [] [] [] [] [] [] []]; try reflexivity.
        discriminate.
      * simpl. rewrite Hc. reflexivity.
Qed.

(** ** The options with one text as value *)

Section Options.

Context {Job : Type} `{VscUtils} `{Environment Job}.

(** X9.  [-A] and [-q] take their value stripped; the job receives it as
    [project] or [queue] when it is a letter followed by letters, digits and
    underscores only, and otherwise nothing is set and one
    [invalid_project_name] or [invalid_queue_name] event holds it.  Neither
    raises. *)
Theorem handle_option_A_q (s : string) (self : PbsOptionParser Job) :
  handle_option "A" (OStr s) self
  = accept_or_report identifier "project" "invalid_project_name" s self
  /\ handle_option "q" (OStr s) self
     = accept_or_report identifier "queue" "invalid_queue_name" s self.
Proof.
  unfold handle_option, accept_or_report, check_A, check_q. simpl. run_m.
  rewrite (match_identifier_stripped _ (strip_end s)).
  destruct (identifier (Py.strip s)); split; reflexivity.
Qed.

(** X10.  [-N] takes its value stripped; the job receives it as [name] when
    it is a letter followed by at most 14 letters, digits and underscores,
    and otherwise nothing is set and one [invalid_job_name] event holds it. *)
Theorem handle_option_N (s : string) (self : PbsOptionParser Job) :
  handle_option "N" (OStr s) self
  = accept_or_report job_name "name" "invalid_job_name" s self.
Proof.
  unfold handle_option, accept_or_report, check_N. simpl. run_m.
  rewrite (match_job_name_stripped _ (strip_end s)).
  destruct (job_name (Py.strip s)); reflexivity.
Qed.

(** X11.  [-k] takes its value stripped; the job receives it as [keep] when
    it is [n] or any text of one character at least made of [e] and [o]
    only, of whatever length; otherwise nothing is set and one event holds
    it, of the kind [invalid_join] that [-j] uses as well. *)
Theorem handle_option_k (s : string) (self : PbsOptionParser Job) :
  handle_option "k" (OStr s) self
  = accept_or_report keep_value "keep" "invalid_join" s self.
Proof.
  unfold handle_option, accept_or_report, check_k. simpl. run_m.
  rewrite (match_keep_stripped _ (strip_end s)).
  destruct (keep_value (Py.strip s)); reflexivity.
Qed.

(** X12.  [-m] takes its value stripped; the job receives it as
    [mail_events] when it is [n] or one to three characters among [b], [e]
    and [a], repeated or not; otherwise nothing is set and one
    [invalid_mail_event] event holds it. *)
Theorem handle_option_m (s : string) (self : PbsOptionParser Job) :
  handle_option "m" (OStr s) self
  = accept_or_report mail_events_value "mail_events" "invalid_mail_event"
      s self.
Proof.
  unfold handle_option, accept_or_report, check_m. simpl. run_m.
  rewrite (match_mail_events_stripped _ (strip_end s)).
  destruct (mail_events_value (Py.strip s)); reflexivity.
Qed.

Lemma check_addresses addresses : forall (self : PbsOptionParser Job),
  for_each addresses
    (fun address (_ : unit) =>
       if negb (validate_email address)
       then reg_event "invalid_mail_address" {[ "address" := address ]}
       else mret tt)
    tt self
  = (Return tt,
     add_events
       (map invalid_mail_address
          (List.filter (fun a => negb (validate_email a)) addresses))
       self).
Proof.
  induction addresses as [|a l IH]; intros self; simpl.
  - rewrite add_events_nil. reflexivity.
  - unfold mbind, M_bind.
    destruct (negb (validate_email a)); simpl.
    + rewrite IH. unfold add_events. simpl.
      rewrite <- app_assoc. reflexivity.
    + apply IH.
Qed.

(** X13.  [-M] stores on the job every piece of its stripped value between
    commas, valid or not and itself not stripped, and registers one
    [invalid_mail_address] event for each piece the validator rejects, in
    their order.  It never raises. *)
Theorem handle_option_M (s : string) (self : PbsOptionParser Job) :
  handle_option "M" (OStr s) self
  = (Return tt,
     add_events
       (map invalid_mail_address
          (List.filter (fun a => negb (validate_email a))
             (Py.split "," (Py.strip s))))
       (set_attribute "mail_addresses"
          (AList (Py.split "," (Py.strip s))) self)).
Proof.
  unfold handle_option, check_M. simpl. run_m.
  unfold modify_job. apply check_addresses.
Qed.

End Options.

(** ** The events of a whole parse *)

Section Appends.

Context {Job : Type} `{VscUtils} `{Environment Job}.

Lemma appends_extends {A} (P : Event -> Prop) (m : M Job A) :
  extends P m -> appends P m.
Proof. intros Hm self. apply (Hm self). Qed.

Lemma appends_impl {A} (P Q : Event -> Prop) (m : M Job A) :
  (forall e, P e -> Q e) -> appends P m -> appends Q m.
Proof.
  intros HPQ Hm self. destruct (Hm self) as (new & Hev & HP).
  exists new. split; [exact Hev|]. eapply Forall_impl; eauto.
Qed.

Lemma appends_ret {A} P (a : A) : appends (Job := Job) P (mret a).
Proof. apply appends_extends, extends_ret. Qed.

Lemma appends_raise {A} P e : appends (Job := Job) P (raise (A := A) e).
Proof. apply appends_extends, extends_raise. Qed.

Lemma appends_reg_event (P : Event -> Prop) ev ex :
  P (mkEvent ev ex) -> appends (Job := Job) P (reg_event ev ex).
Proof. intros HP. apply appends_extends, extends_reg_event, HP. Qed.

Lemma appends_modify_job P f : appends (Job := Job) P (modify_job f).
Proof.
  intros self. exists []. simpl. rewrite app_nil_r.
  split; [reflexivity | constructor].
Qed.

Lemma appends_bind {A B} P (m : M Job A) (k : A -> M Job B) :
  appends P m -> (forall a, appends P (k a)) -> appends P (m ≫= k).
Proof.
  intros Hm Hk self. unfold mbind, M_bind.
  destruct (Hm self) as (new & Hev & HP).
  destruct (m self) as [[a|e] self1]; simpl in *.
  - destruct (Hk a self1) as (new' & Hev' & HP').
    exists (new ++ new'). rewrite Hev', Hev, app_assoc.
    split; [reflexivity|]. apply Forall_app. auto.
  - exists new. auto.
Qed.

Lemma appends_for_each {A S} P (xs : list A) (body : A -> S -> M Job S) :
  (forall x acc, appends P (body x acc)) ->
  forall acc, appends P (for_each xs body acc).
Proof.
  intros Hbody. induction xs as [|x xs IH]; intros acc; simpl.
  - apply appends_ret.
  - apply appends_bind; [apply Hbody | exact IH].
Qed.

Lemma appends_check_l vals : appends option_event (check_l vals).
Proof.
  unfold check_l. apply appends_bind; [|intros; apply appends_modify_job].
  apply (appends_impl resource_event); [intros e He; left; exact He|].
  apply appends_extends, check_l_loop_extends.
Qed.

Lemma appends_strip_value P value :
  appends (Job := Job) P (strip_value value).
Proof.
  destruct value; simpl; first [apply appends_ret | apply appends_raise].
Qed.

Lemma appends_iterate P value : appends (Job := Job) P (iterate value).
Proof.
  destruct value; simpl; first [apply appends_ret | apply appends_raise].
Qed.

Lemma appends_check_M val : appends option_event (check_M val).
Proof.
  unfold check_M. apply appends_bind; [apply appends_modify_job|].
  intros _. apply appends_for_each. intros address [].
  destruct (negb (validate_email address)); [|apply appends_ret].
  apply appends_reg_event. right. exists address. auto 10.
Qed.

Lemma appends_handle_option option value :
  appends option_event (handle_option option value).
Proof.
  unfold handle_option, check_A, check_j, check_k, check_m, check_N, check_q.
  repeat match goal with
         | |- appends _ (if ?b then _ else _) => destruct b
         | |- appends _ (_ ≫= _) => apply appends_bind; [|intros ?]
         | |- appends _ (strip_value _) => apply appends_strip_value
         | |- appends _ (iterate _) => apply appends_iterate
         | |- appends _ (check_l _) => apply appends_check_l
         | |- appends _ (check_M _) => apply appends_check_M
         | |- appends _ (modify_job _) => apply appends_modify_job
         | |- appends _ (reg_event _ _) =>
             apply appends_reg_event; right; eexists; eauto 10
         | |- appends _ (mret _) => apply appends_ret
         end.
Qed.

(** X14.  After [parse_args], whether it returned or raised, every event of
    the parser is of one of the thirteen kinds of the options and holds one
    detail: the seven of the resource options, and [invalid_project_name],
    [invalid_queue_name], [invalid_join], [invalid_mail_event] and
    [invalid_job_name] with the value as [val], and [invalid_mail_address]
    with the [address]. *)
Theorem parse_args_event_kinds (option_line : string)
  (self : PbsOptionParser Job) :
  Forall option_event (_events (snd (parse_args option_line self))).
Proof.
  unfold parse_args, mbind, M_bind, reset_events, lift. simpl.
  destruct (parse_known_args (convert_arg_line_to_args option_line))
    as [options|e]; simpl; [|constructor].
  assert (appends option_event (for_each options handle_item tt)) as Happ.
  { apply appends_for_each. intros [option value] []. simpl.
    destruct (truthy value);
      [apply appends_handle_option | apply appends_ret]. }
  destruct (Happ (mkParser (_job self) [])) as (new & Hev & HP).
  rewrite Hev. exact HP.
Qed.

End Appends.

(** * The semantic checker *)

Lemma some_node_fits_existsb node_mem mem_sizes :
  some_node_fits node_mem mem_sizes = existsb (Z.ltb node_mem) mem_sizes.
Proof.
  induction mem_sizes as [|mem rest IH]; simpl; [reflexivity|].
  rewrite IH. destruct (Z.ltb node_mem mem); reflexivity.
Qed.

Lemma some_node_fits_false node_mem mem_sizes :
  some_node_fits node_mem mem_sizes = false
  <-> Forall (fun mem => mem <= node_mem) mem_sizes.
Proof.
  induction mem_sizes as [|mem rest IH]; simpl.
  - split; [constructor | reflexivity].
  - destruct (Z.ltb_spec node_mem mem) as [Hlt|Hge].
    + split; [discriminate|]. intros HF. inversion HF; subst. lia.
    + rewrite IH. split.
      * intros HF. constructor; assumption.
      * intros HF. inversion HF; assumption.
Qed.

(** X15.  [check_pmem] returns without value, and registers its one
    [insufficient_node_mem] event, exactly when [ppn] and [pmem] are both
    present and not zero and no memory size exceeds their product; this
    includes a partition with no memory size at all and a node whose memory
    equals the product.  In every other case it returns [True] and
    registers nothing.  The events registered before are kept. *)
Theorem check_pmem_spec (bytes2size : Z -> string -> string)
  (ppn pmem : option Z) (mem_sizes : list Z) (events : list Event) :
  (fst (check_pmem bytes2size ppn pmem mem_sizes events) = None
   <-> exists p m,
         ppn = Some p /\ pmem = Some m /\ p <> 0 /\ m <> 0
         /\ Forall (fun mem => mem <= p * m) mem_sizes)
  /\ check_pmem bytes2size ppn pmem mem_sizes events
     = match fst (check_pmem bytes2size ppn pmem mem_sizes events) with
       | None =>
           (None,
            events
            ++ [insufficient_node_mem bytes2size
                  (default 0 ppn * default 0 pmem)])
       | Some _ => (Some true, events)
       end.
Proof.
  unfold check_pmem.
  destruct ppn as [p|], pmem as [m|]; simpl;
    try (split; [split; [discriminate | intros (? & ? & ? & ?); intuition
                                                   discriminate]
                | reflexivity]).
  2:{ rewrite andb_false_r. split; [|reflexivity].
      split; [discriminate | intros (? & ? & ? & ?); intuition discriminate]. }
  destruct (Z.eqb_spec p 0) as [Hp|Hp]; simpl.
  { split; [|reflexivity]. split; [discriminate|].
    intros (p' & m' & Hp' & _ & Hnz & _). inversion Hp'. congruence. }
  destruct (Z.eqb_spec m 0) as [Hm|Hm]; simpl.
  { split; [|reflexivity]. split; [discriminate|].
    intros (p' & m' & _ & Hm' & _ & Hnz & _). inversion Hm'. congruence. }
  destruct (some_node_fits (p * m) mem_sizes) eqn:Hfit; simpl.
  - split; [|reflexivity]. split; [discriminate|].
    intros (p' & m' & Hp' & Hm' & _ & _ & HF).
    inversion Hp'; inversion Hm'; subst.
    apply some_node_fits_false in HF. congruence.
  - split; [|reflexivity]. split; [|reflexivity].
    intros _. exists p, m. repeat split; auto.
    apply some_node_fits_false. exact Hfit.
Qed.

Lemma existsb_Permutation {A} (f : A -> bool) l l' :
  l ≡ₚ l' -> existsb f l = existsb f l'.
Proof.
  induction 1 as [|x l l' _ IH|x y l|l l' l'' _ IH1 _ IH2]; simpl.
  - reflexivity.
  - rewrite IH. reflexivity.
  - destruct (f x), (f y); reflexivity.
  - congruence.
Qed.

(** X16.  The order in which the memory sizes are visited is of no effect
    on [check_pmem]. *)
Theorem check_pmem_order (bytes2size : Z -> string -> string)
  (ppn pmem : option Z) (mem_sizes mem_sizes' : list Z)
  (events : list Event) :
  mem_sizes ≡ₚ mem_sizes' ->
  check_pmem bytes2size ppn pmem mem_sizes events
  = check_pmem bytes2size ppn pmem mem_sizes' events.
Proof.
  intros Hperm. unfold check_pmem.
  destruct (truthy_int ppn && truthy_int pmem); [|reflexivity].
  destruct ppn as [p|], pmem as [m|]; try reflexivity.
  simpl. rewrite !some_node_fits_existsb.
  rewrite (existsb_Permutation _ _ _ Hperm). reflexivity.
Qed.

Lemma check_pmem_order_witness :
  check_pmem (fun _ _ => "16gb") (Some 4) (Some 4) [8; 32; 16] []
  = check_pmem (fun _ _ => "16gb") (Some 4) (Some 4) [32; 16; 8] [].
Proof.
  apply (check_pmem_order (fun _ _ => "16gb") (Some 4) (Some 4)
           [8; 32; 16] [32; 16; 8] []).
  change [8; 32; 16] with ([8] ++ [32; 16]).
  change [32; 16; 8] with ([32; 16] ++ [8]).
  apply Permutation_app_comm.
Defined.

(** * The job log analysis *)

Lemma has_char_count c s :
  has_char c s = negb (Nat.eqb (count_char c s) 0).
Proof.
  induction s as [|d r IH]; simpl; [reflexivity|].
  destruct (Ascii.eqb d c); simpl; [reflexivity | exact IH].
Qed.

(** X17.  The [ppn] that [job_to_tuple] reads is decided by the second
    [':']-separated part of the [nodes] resource alone: nothing when there
    is no second part or it holds no ['=']; the text after the ['='] when it
    holds exactly one, whatever stands before it; and a [ValueError] when it
    holds two or more. *)
Theorem job_ppn_spec (nodes : string) :
  job_ppn nodes
  = match Py.split ":" nodes with
    | _ :: part1 :: _ =>
        match count_char "=" part1 with
        | O => Return None
        | S O => Return (Some (value_of part1))
        | _ => Raise ValueError
        end
    | _ => Return None
    end.
Proof.
  unfold job_ppn. destruct (Py.split ":" nodes) as [|part0 [|part1 parts]];
    try reflexivity.
  rewrite has_char_count.
  destruct (count_char "=" part1) as [|[|n]] eqn:Hc; simpl.
  - reflexivity.
  - rewrite split_one_eq; [reflexivity|].
    unfold one_eq. rewrite Hc. reflexivity.
  - pose proof (split_length "=" part1) as Hl. rewrite Hc in Hl.
    destruct (Py.split "=" part1) as [|a [|b [|c l]]]; try reflexivity.
    simpl in Hl. lia.
Qed.

(** X18.  A [nodes] resource written as a count, [:ppn=] and a number gives
    that number back as [ppn], also when features follow; a [ppn=] that
    comes after a feature is not found. *)
Theorem job_ppn_round_trip (count ppn feature : string) :
  has_char ":" count = false ->
  has_char ":" ppn = false -> has_char "=" ppn = false ->
  has_char ":" feature = false -> has_char "=" feature = false ->
  job_ppn (count +:+ String ":" ("ppn=" +:+ ppn)) = Return (Some ppn)
  /\ job_ppn (count +:+ String ":" (("ppn=" +:+ ppn) +:+ String ":" feature))
     = Return (Some ppn)
  /\ job_ppn (count +:+ String ":" (feature +:+ String ":" ("ppn=" +:+ ppn)))
     = Return None.
Proof.
  intros Hcount Hp1 Hp2 Hf1 Hf2.
  assert (has_char ":" ("ppn=" +:+ ppn) = false) as Hpp by exact Hp1.
  assert (Py.split "=" ("ppn=" +:+ ppn) = ["ppn"; ppn]) as Hsplit.
  { apply (name_value_split "ppn" ppn); [reflexivity | exact Hp2]. }
  unfold job_ppn. split; [|split].
  - rewrite (split_app ":" count _ Hcount), (split_no_sep ":" _ Hpp).
    rewrite Hsplit. reflexivity.
  - rewrite (split_app ":" count _ Hcount).
    rewrite (split_app ":" ("ppn=" +:+ ppn) feature Hpp).
    rewrite Hsplit. reflexivity.
  - rewrite (split_app ":" count _ Hcount).
    rewrite (split_app ":" feature _ Hf1). rewrite Hf2. reflexivity.
Qed.

Lemma job_ppn_round_trip_witness :
  job_ppn ("2" +:+ String ":" ("ppn=" +:+ "16")) = Return (Some "16")
  /\ job_ppn ("2" +:+ String ":" (("ppn=" +:+ "16") +:+ String ":" "bigmem"))
     = Return (Some "16")
  /\ job_ppn ("2" +:+ String ":" ("bigmem" +:+ String ":" ("ppn=" +:+ "16")))
     = Return None.
Proof.
  apply (job_ppn_round_trip "2" "16" "bigmem"); reflexivity.
Defined.

#[export] Instance string_le_total : Total string_le.
Proof. intros a b. apply String.leb_total. Qed.

Lemma host_tuples_spec {J V} (job_id : J) (d : gmap string V) hosts :
  forall tuples,
    Forall (fun host => is_Some (d !! host)) hosts ->
    exists new,
      host_tuples job_id d hosts tuples = Return (tuples ++ new)
      /\ map host_of new = hosts
      /\ Forall (fun t => fst (fst t) = job_id
                          /\ d !! host_of t = Some (snd t)) new.
Proof.
  induction hosts as [|host rest IH]; intros tuples Hall; simpl.
  - exists []. rewrite app_nil_r. repeat split. constructor.
  - inversion Hall as [|? ? [cores Hc] Hrest]; subst. rewrite Hc.
    destruct (IH (tuples ++ [(job_id, host, cores)]) Hrest)
      as (new & Hrun & Hhosts & Hnew).
    exists ((job_id, host, cores) :: new). rewrite Hrun, <- app_assoc.
    split; [reflexivity|]. split; [simpl; rewrite Hhosts; reflexivity|].
    constructor; [split; [reflexivity | exact Hc] | exact Hnew].
Qed.

(** X19.  [exec_host_to_tuples] never raises.  It returns one tuple per host
    of the dictionary, in the order of the host names, each with the job
    identifier and what the dictionary holds for the host; and the empty
    list when there is no dictionary or the dictionary is empty. *)
Theorem exec_host_to_tuples_spec {J V : Type} (job_id : J)
  (exec_host : option (gmap string V)) :
  exists tuples,
    exec_host_to_tuples job_id exec_host = Return tuples
    /\ Sorted string_le (map host_of tuples)
    /\ map host_of tuples ≡ₚ elements (dom (default ∅ exec_host))
    /\ List.length tuples = size (default ∅ exec_host)
    /\ Forall (fun t => fst (fst t) = job_id
                        /\ default ∅ exec_host !! host_of t = Some (snd t))
         tuples.
Proof.
  destruct exec_host as [d|]; simpl.
  2:{ exists []. rewrite dom_empty_L, elements_empty.
      repeat split; constructor. }
  unfold exec_host_to_tuples.
  destruct (Nat.eqb (size d) 0) eqn:Hsize.
  - apply Nat.eqb_eq in Hsize. pose proof Hsize as Hsz.
    apply map_size_empty_iff in Hsize. subst d.
    exists []. rewrite dom_empty_L, elements_empty.
    repeat split; constructor.
  - assert (Forall (fun host => is_Some (d !! host)) (sorted_keys d)) as Hall.
    { apply Forall_forall. intros host Hin. unfold sorted_keys in Hin.
      rewrite merge_sort_Permutation in Hin.
      apply elem_of_elements, elem_of_dom in Hin. exact Hin. }
    destruct (host_tuples_spec job_id d (sorted_keys d) [] Hall)
      as (new & Hrun & Hhosts & Hnew).
    exists new. simpl in Hrun. split; [exact Hrun|]. rewrite Hhosts.
    split; [apply Sorted_merge_sort, _|].
    split; [apply merge_sort_Permutation|]. split; [|exact Hnew].
    rewrite <- (length_map host_of), Hhosts. unfold sorted_keys.
    rewrite merge_sort_Permutation. rewrite <- size_dom.
    reflexivity.
Qed.

Example exec_host_to_tuples_example :
  exec_host_to_tuples 7%nat
    (Some (<["r2i1n3" := "0-3"]> (<["r1i0n12" := "4"]>
             ({[ "r1i0n2" := "0-7" ]} : gmap string string))))
  = Return [(7%nat, "r1i0n12", "4"); (7%nat, "r1i0n2", "0-7");
            (7%nat, "r2i1n3", "0-3")].
Proof. vm_compute. reflexivity. Qed.
